(** * OSDB hashing of local files and HTTP(S) resources

    A shallow embedding of [src/ziggy/lib/utils.go] (package [lib]): the chunk
    reader ([readChunks], [readRemoteChunks], [readChunk], [readRemoteChunk]),
    the hash folder ([OSDBHashFile]) and the error reporting ([Check],
    [Must]).

    Conventions.
    - Go's [int64] and [uint64] are [Z] with the wrap-around written out
      ([wrap64], [wrapu64]); [int] is taken to be 64 bits wide (amd64, arm64),
      so [int(x)] of an [int64] is the identity.
    - A byte slice is a [list byte]; a Go [string] is a [string].
    - A Go function that returns [(a, b, err)] returns the tuple
      [(a, b, err)] with [err : option error] ([None] is [nil]).
    - A run of a function is a pair: how it ended ([Returned] or [Panicked])
      and the events it caused, oldest first (files opened, positioned reads,
      HTTP requests, bodies closed).  Statements on resources, and on
      what was or was not fetched, are statements on these events.
    - The file system and the network are the parameter [World]. *)

From Stdlib Require Import ZArith Lia.
From Stdlib.Strings Require Import Ascii String Byte.
From stdpp Require Import base option list strings gmap pretty.

Local Open Scope Z_scope.

(** ** Machine integers *)

Module Int.

Definition min_int64 : Z := - 2 ^ 63.
Definition max_int64 : Z := 2 ^ 63 - 1.
Definition max_uint64 : Z := 2 ^ 64 - 1.

(** The value a two's complement [int64] holds after an operation whose
    mathematical result is [z]. *)
Definition wrap64 (z : Z) : Z := (z + 2 ^ 63) mod 2 ^ 64 - 2 ^ 63.

(** The same for [uint64]; this is also the conversion [uint64(x)]. *)
Definition wrapu64 (z : Z) : Z := z mod 2 ^ 64.

Definition is_int64 (z : Z) : Prop := min_int64 <= z <= max_int64.
Definition is_uint64 (z : Z) : Prop := 0 <= z <= max_uint64.

End Int.

Import Int.

(** ** Errors

    The source builds its own errors with [errors.New] and [fmt.Errorf], and
    passes on those of the libraries it calls.  An error value is modelled by
    what identifies it. *)

Inductive num_error := ErrSyntax | ErrRange.

Inductive error :=
  | errors_New (msg : string)            (* errors.New(msg) *)
  | invalid_read (n : Z)                 (* fmt.Errorf("invalid read %v", n) *)
  | NumError (func : string) (e : num_error)  (* *strconv.NumError *)
  | io_EOF                               (* io.EOF *)
  | io_ErrUnexpectedEOF                  (* io.ErrUnexpectedEOF *)
  | PathError (op msg : string)          (* *fs.PathError *)
  | url_Error (op : string).             (* *url.Error of net/http *)

(** The error kinds of the specification, as the error values of the code. *)
Definition OpenError : error := errors_New "couldn't open file for hashing".
Definition StatError : error := errors_New "couldn't stat file for hashing".
Definition RangeUnsupportedError : error :=
  errors_New "URL doesn't support range fetch".
Definition SourceTooSmallError : error :=
  errors_New "file is too small to generate a valid hash".
Definition MalformedResponseError (e : error) : Prop :=
  exists k, e = NumError "ParseInt" k.
(** Fewer bytes than the span asked for: the end of input met by the read
    itself, or the byte count rejected afterwards. *)
Definition ShortReadError (e : error) : Prop :=
  e = io_EOF \/ e = io_ErrUnexpectedEOF \/ exists n, e = invalid_read n.

(** ** Runs: outcome and events *)

Inductive event :=
  | EvOpen (path : string)               (* os.Open returned a file handle *)
  | EvFileClose (path : string)          (* file.Close() *)
  | EvReadAt (path : string) (off len : Z)  (* file.ReadAt *)
  | EvDo (method url : string) (range : option string) (answered : bool)
                                         (* client.Do; answered: a response
                                            came back and its Body is open *)
  | EvBodyClose (method url : string)    (* resp.Body.Close() *)
  | EvCancel.                            (* cancelFunc() *)

Inductive outcome (A : Type) :=
  | Returned (a : A)
  | Panicked (msg : string).
Arguments Returned {A} a.
Arguments Panicked {A} msg.

Definition run (A : Type) : Type := outcome A * list event.

Definition ret {A} (a : A) : run A := (Returned a, []).
Definition emit (e : event) : run unit := (Returned tt, [e]).
Definition panic {A} (msg : string) : run A := (Panicked msg, []).

Definition bind {A B} (m : run A) (k : A -> run B) : run B :=
  match m with
  | (Returned a, t) => let '(r, t') := k a in (r, t ++ t')
  | (Panicked msg, t) => (Panicked msg, t)
  end.

(** [defer f(); body]: [f] runs when the function is left, whether by
    [return] or by a panic. *)
Definition defer {A} (deferred : list event) (body : run A) : run A :=
  let '(r, t) := body in (r, t ++ deferred).

(** [run] is a monad in stdpp's sense: [x ← m; k] and [m ;; k] below are
    [bind]. *)
#[global] Instance run_ret : MRet run := @ret.
#[global] Instance run_bind : MBind run := fun A B k m => bind m k.

Definition result_of {A} (r : run A) : outcome A := fst r.
Definition events_of {A} (r : run A) : list event := snd r.

(** ** Byte slices *)

Definition byte_val (b : byte) : Z := Z.of_N (Byte.to_N b).

Definition len {A} (l : list A) : Z := Z.of_nat (length l).

(** [make([]byte, n)]: zeroed; a negative length panics. *)
Definition make (n : Z) : run (list byte) :=
  if n <? 0 then panic "makeslice: len out of range"
  else ret (replicate (Z.to_nat n) x00).

(** [b[lo:hi]] of a slice whose capacity is its length. *)
Definition slice (b : list byte) (lo hi : Z) : run (list byte) :=
  if (0 <=? lo) && (lo <=? hi) && (hi <=? len b)
  then ret (take (Z.to_nat (hi - lo)) (drop (Z.to_nat lo) b))
  else panic "slice bounds out of range".

(** What the backing array holds once the sub-slice that starts at [lo] has
    been overwritten with [sub]. *)
Definition store (b : list byte) (lo : Z) (sub : list byte) : list byte :=
  take (Z.to_nat lo) b ++ sub ++ drop (Z.to_nat lo + length sub) b.

(** The bytes [[off, off+n)] of [data] that exist. *)
Definition bytes_at (data : list byte) (off n : Z) : list byte :=
  take (Z.to_nat n) (drop (Z.to_nat off) data).

(** ** The Go libraries the source calls *)

(** [strings.HasPrefix(s, p)]. *)
Definition HasPrefix (s p : string) : bool := String.prefix p s.

(** *** strconv *)

Module strconv.

(** [strconv.Itoa]. *)
Definition Itoa (i : Z) : string := pretty i.

Definition digit (c : ascii) : option Z :=
  let n := Z.of_N (N_of_ascii c) in
  if (48 <=? n) && (n <=? 57) then Some (n - 48) else None.

(** The digit loop of [ParseUint(s, 10, 64)], [n] the value so far: a
    character that is no decimal digit is a syntax error, a value beyond
    [uint64] a range error (with [max_uint64] as the value). *)
Fixpoint ParseUint_loop (s : string) (n : Z) : Z * option num_error :=
  match s with
  | EmptyString => (n, None)
  | String c s' =>
      match digit c with
      | None => (0, Some ErrSyntax)
      | Some d =>
          if n >=? max_uint64 / 10 + 1 then (max_uint64, Some ErrRange)
          else
            let n := n * 10 in
            let n1 := wrapu64 (n + d) in
            if (n1 <? n) || (n1 >? max_uint64) then (max_uint64, Some ErrRange)
            else ParseUint_loop s' n1
      end
  end.

Definition ParseUint (s : string) : Z * option num_error :=
  match s with
  | EmptyString => (0, Some ErrSyntax)
  | _ => ParseUint_loop s 0
  end.

(** [strconv.ParseInt(s, 10, 64)]. *)
Definition ParseInt (s : string) : Z * option error :=
  match s with
  | EmptyString => (0, Some (NumError "ParseInt" ErrSyntax))
  | String c s' =>
      let neg := Ascii.eqb c "-" in
      let digits := if Ascii.eqb c "+" || neg then s' else s in
      match ParseUint digits with
      | (_, Some ErrSyntax) => (0, Some (NumError "ParseInt" ErrSyntax))
      | (un, _) =>
          let cutoff := 2 ^ 63 in
          if negb neg && (un >=? cutoff)
          then (cutoff - 1, Some (NumError "ParseInt" ErrRange))
          else if neg && (un >? cutoff)
          then (- cutoff, Some (NumError "ParseInt" ErrRange))
          else (if neg then - un else un, None)
      end
  end.

End strconv.

(** *** io and os *)

(** [io.ReadFull(r, buf)] on a reader that still holds [body]: the bytes
    read, what [buf] holds afterwards, and the error. *)
Definition io_ReadFull (body buf : list byte) : Z * list byte * option error :=
  let got := take (length buf) body in
  let n := len got in
  (n, got ++ drop (length got) buf,
   if n <? len buf then Some (if n =? 0 then io_EOF else io_ErrUnexpectedEOF)
   else None).

(** [f.ReadAt(buf, off)] on a regular file that holds [data]: reads until
    [buf] is full or the file ends; the end of the file before [buf] is full
    is [io.EOF]; a negative offset is refused. *)
Definition File_ReadAt (data buf : list byte) (off : Z)
  : Z * list byte * option error :=
  if off <? 0 then (0, buf, Some (PathError "readat" "negative offset"))
  else
    let got := take (length buf) (drop (Z.to_nat off) data) in
    let n := len got in
    (n, got ++ drop (length got) buf,
     if n <? len buf then Some io_EOF else None).

(** *** encoding/binary *)

Module binary.

(** [binary.LittleEndian.Uint64]. *)
Definition LittleEndian_Uint64 (b0 b1 b2 b3 b4 b5 b6 b7 : byte) : Z :=
  Z.lor (byte_val b0)
 (Z.lor (Z.shiftl (byte_val b1) 8)
 (Z.lor (Z.shiftl (byte_val b2) 16)
 (Z.lor (Z.shiftl (byte_val b3) 24)
 (Z.lor (Z.shiftl (byte_val b4) 32)
 (Z.lor (Z.shiftl (byte_val b5) 40)
 (Z.lor (Z.shiftl (byte_val b6) 48)
        (Z.shiftl (byte_val b7) 56))))))).

(** The first [n] words of [bs]; a missing byte cannot occur once
    [8 * n] bytes have been read, and reads as no word. *)
Fixpoint decode (n : nat) (bs : list byte) : list Z :=
  match n, bs with
  | S n', b0 :: b1 :: b2 :: b3 :: b4 :: b5 :: b6 :: b7 :: bs' =>
      LittleEndian_Uint64 b0 b1 b2 b3 b4 b5 b6 b7 :: decode n' bs'
  | _, _ => []
  end.

(** [binary.Read(bytes.NewReader(buf), binary.LittleEndian, &nums)] with
    [nums] an array of [n] [uint64]: [8 * n] bytes are read in full
    ([io.EOF] when there is none, [io.ErrUnexpectedEOF] when too few) and
    decoded; bytes beyond are left unread. *)
Definition Read (n : nat) (buf : list byte) : list Z * option error :=
  let '(_, bs, err) := io_ReadFull buf (replicate (8 * n) x00) in
  match err with
  | Some e => (replicate n 0, Some e)
  | None => (decode n bs, None)
  end.

End binary.

(** *** fmt *)

Module fmt.

Definition hex_digit (d : Z) : ascii :=
  ascii_of_N (Z.to_N (if d <? 10 then 48 + d else 87 + d)).

(** The digit loop of [fmt]'s integer formatting in base 16, least
    significant digit first: [for u >= 16 { digit(u & 0xF); u >>= 4 }],
    then the last digit.  A [uint64] has at most 16 digits, which bounds
    the loop. *)
Fixpoint hex_loop (fuel : nat) (u : Z) (acc : string) : string :=
  match fuel with
  | O => acc
  | S fuel' =>
      if u <? 16 then String (hex_digit u) acc
      else hex_loop fuel' (Z.shiftr u 4) (String (hex_digit (Z.land u 15)) acc)
  end.

Fixpoint zeros (n : nat) : string :=
  match n with O => EmptyString | S n' => String "0" (zeros n') end.

(** [fmt.Sprintf("%016x", u)] for [u] a [uint64]: lowercase hexadecimal,
    padded with zeros on the left to 16 characters. *)
Definition Sprintf_016x (u : Z) : string :=
  let digits := hex_loop 16 u EmptyString in
  zeros (16 - String.length digits) +:+ digits.

End fmt.

(** ** The world outside the program *)

Inductive local_file :=
  | Regular (data : list byte)      (* opens; Stat gives len data *)
  | Unstatable (data : list byte).  (* opens; Stat fails *)

Definition file_data (f : local_file) : list byte :=
  match f with Regular d | Unstatable d => d end.

Record http_response := {
  Header : gmap string (list string);   (* http.Header *)
  Body : list byte                      (* what Body yields until EOF *)
}.

Record World := {
  (** The file at a path; [None]: [os.Open] fails. *)
  fs : string -> option local_file;
  (** Whether [http.NewRequestWithContext] accepts the URL. *)
  url_ok : string -> bool;
  (** [client.Do] of a request with this method, URL and Range header within
      the deadline; [None]: it fails. *)
  client_Do : string -> string -> option string -> option http_response
}.

(** [net/http] never stores a header with no value. *)
Definition well_formed_header (h : gmap string (list string)) : Prop :=
  forall k vs, h !! k = Some vs -> vs <> [].

(** ** The program *)

Definition OSDBChunkSize : Z := 65536.

Record chunkInfo := { offset : Z; size : Z }.

Section Program.

Variable W : World.

(** What [span] becomes in the loops of [readChunks] and
    [readRemoteChunks]: [start := span.offset; if start < 0 { start +=
    fileSize }]. *)
Definition resolve (fileSize : Z) (span : chunkInfo) : Z :=
  let start := offset span in
  if start <? 0 then wrap64 (start + fileSize) else start.

(** [for _, span := range chunks { totalBufferNeeded += span.size }]. *)
Definition totalBufferNeeded (chunks : list chunkInfo) : Z :=
  fold_left (fun total span => wrap64 (total + size span)) chunks 0.

(** The second loop of [readChunks] (lines 131-141) and of
    [readRemoteChunks] (lines 86-96), which differ in the callee only:
    [fetch start sub] is [readChunk(file, start, sub)] or
    [readRemoteChunk(ctx, client, url, start, sub)], given what the
    sub-slice holds and returning what it holds afterwards. *)
Fixpoint fill (fetch : Z -> list byte -> run (list byte * option error))
    (fileSize : Z) (chunks : list chunkInfo) (buf : list byte) (filled : Z)
  : run (Z * list byte * option error) :=
  match chunks with
  | [] => mret (fileSize, buf, None)
  | span :: chunks' =>
      let start := resolve fileSize span in
      sub ← slice buf filled (wrap64 (filled + size span));
      '(sub', err) ← fetch start sub;
      let buf := store buf filled sub' in
      match err with
      | Some e => mret (fileSize, buf, Some e)
      | None => fill fetch fileSize chunks' buf (wrap64 (filled + size span))
      end
  end.

(** [readChunk(file, offset, buf)], [file] open on [path] with contents
    [data]. *)
Definition readChunk (path : string) (data : list byte) (offset : Z)
    (buf : list byte) : run (list byte * option error) :=
  emit (EvReadAt path offset (len buf));;
  let '(n, buf', err) := File_ReadAt data buf offset in
  match err with
  | Some e => mret (buf', Some e)
  | None =>
      if negb (n =? OSDBChunkSize) then mret (buf', Some (invalid_read n))
      else mret (buf', None)
  end.

(** The value of [range_header] in [readRemoteChunk], [n] being
    [len(buf)]: ["bytes=" + Itoa(int(offset)) + "-" +
    Itoa(int(offset)+len(buf)-1)]. *)
Definition range_header (offset n : Z) : string :=
  "bytes=" +:+ strconv.Itoa offset +:+ "-"
           +:+ strconv.Itoa (wrap64 (wrap64 (offset + n) - 1)).

(** [readRemoteChunk(ctx, client, url, offset, buf)]. *)
Definition readRemoteChunk (url : string) (offset : Z) (buf : list byte)
  : run (list byte * option error) :=
  if negb (url_ok W url) then mret (buf, Some (url_Error "parse"))
  else
    let range_header := range_header offset (len buf) in
    match client_Do W "GET" url (Some range_header) with
    | None =>
        emit (EvDo "GET" url (Some range_header) false);;
        mret (buf, Some (url_Error "Get"))
    | Some resp =>
        emit (EvDo "GET" url (Some range_header) true);;
        defer [EvBodyClose "GET" url]
          (let '(n, buf', err) := io_ReadFull (Body resp) buf in
           match err with
           | Some e => mret (buf', Some e)
           | None =>
               if negb (n =? len buf) then mret (buf', Some (invalid_read n))
               else mret (buf', None)
           end)
    end.

(** [vs[0]]: indexing an empty slice panics. *)
Definition index0 (vs : list string) : run string :=
  match vs with
  | [] => panic "index out of range [0] with length 0"
  | v :: _ => mret v
  end.

(** [header[key][0]]: a missing key reads as the nil slice. *)
Definition first_value (header : gmap string (list string)) (key : string)
  : run string :=
  index0 (default [] (header !! key)).

(** [readRemoteChunks(url, minimumRequiredSize, chunks...)]. *)
Definition readRemoteChunks (url : string) (minimumRequiredSize : Z)
    (chunks : list chunkInfo) : run (Z * list byte * option error) :=
  defer [EvCancel]
    (if negb (url_ok W url) then mret (0, [], Some (url_Error "parse"))
     else
       match client_Do W "HEAD" url None with
       | None =>
           emit (EvDo "HEAD" url None false);;
           mret (0, [], Some (url_Error "Head"))
       | Some res =>
           emit (EvDo "HEAD" url None true);;
           let header := Header res in
           reject ←
             match header !! "Accept-Ranges" with
             | None => mret true
             | Some accept_ranges =>
                 v ← index0 accept_ranges;
                 mret (negb (String.eqb v "bytes"))
             end;
           if reject : bool then mret (0, [], Some RangeUnsupportedError)
           else
             content_length ← first_value header "Content-Length";
             let '(fileSize, err) := strconv.ParseInt content_length in
             match err with
             | Some e => mret (fileSize, [], Some e)
             | None =>
                 if fileSize <? minimumRequiredSize
                 then mret (fileSize, [], Some SourceTooSmallError)
                 else
                   buf ← make (totalBufferNeeded chunks);
                   fill (readRemoteChunk url) fileSize chunks buf 0
             end
       end).

(** [readChunks(filePath, minimumRequiredSize, chunks...)]. *)
Definition readChunks (filePath : string) (minimumRequiredSize : Z)
    (chunks : list chunkInfo) : run (Z * list byte * option error) :=
  if HasPrefix filePath "http://" || HasPrefix filePath "https://"
  then readRemoteChunks filePath OSDBChunkSize chunks
  else
    match fs W filePath with
    | None => mret (0, [], Some OpenError)
    | Some file =>
        emit (EvOpen filePath);;
        match file with
        | Unstatable _ => mret (0, [], Some StatError)
        | Regular data =>
            let fileSize := len data in
            if fileSize <? minimumRequiredSize
            then mret (fileSize, [], Some SourceTooSmallError)
            else
              buf ← make (totalBufferNeeded chunks);
              fill (readChunk filePath data) fileSize chunks buf 0
        end
    end.

(** The value of [spans] in [OSDBHashFile]. *)
Definition spans : list chunkInfo :=
  [ {| offset := 0; size := OSDBChunkSize |};
    {| offset := - OSDBChunkSize; size := OSDBChunkSize |} ].

(** [OSDBHashFile(filePath)]. *)
Definition OSDBHashFile (filePath : string) : run (string * option error) :=
  '(fileSize, buf, err) ← readChunks filePath OSDBChunkSize spans;
  match err with
  | Some e => mret (""%string, Some e)
  | None =>
      let '(nums, err) :=
        binary.Read (Z.to_nat ((OSDBChunkSize * 2) / 8)) buf in
      match err with
      | Some e => mret (""%string, Some e)
      | None =>
          let hashUint := fold_left (fun h num => wrapu64 (h + num)) nums 0 in
          let hashUint := wrapu64 (hashUint + wrapu64 fileSize) in
          mret (fmt.Sprintf_016x hashUint, None)
      end
  end.

End Program.

Arguments make : simpl never.
Arguments slice : simpl never.
Arguments store : simpl never.
Arguments bytes_at : simpl never.
Arguments io_ReadFull : simpl never.
Arguments File_ReadAt : simpl never.
Arguments range_header : simpl never.
Arguments strconv.ParseInt : simpl never.
Arguments binary.Read : simpl never.
Arguments fmt.Sprintf_016x : simpl never.
Arguments wrap64 : simpl never.
Arguments wrapu64 : simpl never.
Arguments HasPrefix : simpl never.

(** ** Definitions the statements use *)

(** The test of [readChunks] that sends a path to the remote reader. *)
Definition is_remote (filePath : string) : bool :=
  HasPrefix filePath "http://" || HasPrefix filePath "https://".

(** The sum of the spans' sizes, without wrap-around. *)
Fixpoint total_size (chunks : list chunkInfo) : Z :=
  match chunks with
  | [] => 0
  | c :: chunks' => size c + total_size chunks'
  end.

(** The minimum that decides in [readChunks]: the remote reader is always
    handed [OSDBChunkSize]. *)
Definition effective_minimum (filePath : string) (minimumRequiredSize : Z) : Z :=
  if is_remote filePath then OSDBChunkSize else minimumRequiredSize.

(** The allocation and the loop that end [readChunks] and
    [readRemoteChunks]. *)
Definition fresh_fill (fetch : Z -> list byte -> run (list byte * option error))
    (fileSize : Z) (chunks : list chunkInfo)
  : run (Z * list byte * option error) :=
  buf ← make (totalBufferNeeded chunks); fill fetch fileSize chunks buf 0.

(** What a range request for [n] bytes from [start] is answered with. *)
Definition remote_bytes (W : World) (url : string) (start n : Z) : list byte :=
  match client_Do W "GET" url (Some (range_header start n)) with
  | Some resp => take (Z.to_nat n) (Body resp)
  | None => []
  end.

(** ** The hash folder, as the specification words it *)

Module Spec.

(** The value of a little-endian unsigned integer. *)
Definition le_word (bs : list byte) : Z :=
  foldr (fun b acc => byte_val b + 256 * acc) 0 bs.

(** The buffer as consecutive eight-byte words. *)
Fixpoint le_words (bs : list byte) : list Z :=
  match bs with
  | b0 :: b1 :: b2 :: b3 :: b4 :: b5 :: b6 :: b7 :: bs' =>
      le_word [b0; b1; b2; b3; b4; b5; b6; b7] :: le_words bs'
  | _ => []
  end.

(** The sum of the words with 64-bit wrap-around. *)
Definition sum64 (ws : list Z) : Z := foldr Z.add 0 ws mod 2 ^ 64.

(** [k] hexadecimal digits of [n], most significant first. *)
Fixpoint hex_digits (k : nat) (n : Z) : string :=
  match k with
  | O => EmptyString
  | S k' => hex_digits k' (n / 16) +:+ String (fmt.hex_digit (n mod 16)) EmptyString
  end.

Definition format_hex16 (n : Z) : string := hex_digits 16 n.

Definition computeIdentityHash (buffer : list byte) (totalSize : Z) : string :=
  format_hex16 ((sum64 (le_words buffer) + totalSize) mod 2 ^ 64).

End Spec.

(** A character of lowercase hexadecimal. *)
Definition lower_hex (c : ascii) : bool :=
  let n := N_of_ascii c in
  ((48 <=? n) && (n <=? 57) || (97 <=? n) && (n <=? 102))%N.

Fixpoint string_forall (p : ascii -> bool) (s : string) : bool :=
  match s with
  | EmptyString => true
  | String c s' => p c && string_forall p s'
  end.

(** The HEAD answer from which [readRemoteChunks] takes the total size [S]:
    the request is accepted and answered, the first [Accept-Ranges] value is
    ["bytes"], and the first [Content-Length] value parses to [S]. *)
Definition remote_size (W : World) (url : string) (S : Z) : Prop :=
  url_ok W url = true /\
  exists res ar cl cls,
    client_Do W "HEAD" url None = Some res /\
    Header res !! "Accept-Ranges" = Some ("bytes"%string :: ar) /\
    Header res !! "Content-Length" = Some (cl :: cls) /\
    strconv.ParseInt cl = (S, None).

(** The total size [S] of a source, as the chunk reader determines it: the
    length of a regular file (an [int64], as [Stat] has it), or the size a
    remote source declares. *)
Definition source_size (W : World) (filePath : string) (S : Z) : Prop :=
  if is_remote filePath then remote_size W filePath S
  else exists data,
         fs W filePath = Some (Regular data) /\ S = len data /\ S <= max_int64.

(** Every GET that [OSDBHashFile] sends for a source of size [S] is answered
    with at least the bytes of the chunk.  (A regular file of that size
    always yields them.) *)
Definition reads_succeed (W : World) (filePath : string) (S : Z) : Prop :=
  is_remote filePath = true ->
  forall start, start = 0 \/ start = S - OSDBChunkSize ->
    exists resp,
      client_Do W "GET" filePath (Some (range_header start OSDBChunkSize))
      = Some resp /\ OSDBChunkSize <= len (Body resp).

(** The bytes of the source in [[start, start+n)]: of the file, or of the
    answer to the range request for them. *)
Definition source_bytes (W : World) (filePath : string) (start n : Z)
  : list byte :=
  if is_remote filePath then remote_bytes W filePath start n
  else match fs W filePath with
       | Some file => bytes_at (file_data file) start n
       | None => []
       end.

(** A span of [OSDBChunkSize] bytes that the source of size [S] yields in
    full: it lies within the file, or its range request is answered with at
    least that many bytes. *)
Definition readable (W : World) (filePath : string) (S : Z) (c : chunkInfo)
  : Prop :=
  size c = OSDBChunkSize /\
  if is_remote filePath
  then exists resp,
         client_Do W "GET" filePath
                   (Some (range_header (resolve S c) OSDBChunkSize)) = Some resp /\
         OSDBChunkSize <= len (Body resp)
  else 0 <= resolve S c /\ resolve S c + OSDBChunkSize <= S.

(** The span [{-OSDBChunkSize, OSDBChunkSize}]: the last chunk of a source. *)
Definition tail_span : chunkInfo :=
  {| offset := - OSDBChunkSize; size := OSDBChunkSize |}.

(** An error that a fetch can return, as opposed to a validation error. *)
Definition fetch_error (e : error) : Prop :=
  match e with errors_New _ => False | _ => True end.

(** A read of the source's bytes: a positioned read of the file, or a GET. *)
Definition is_fetch (e : event) : bool :=
  match e with
  | EvReadAt _ _ _ => true
  | EvDo method _ _ _ => String.eqb method "GET"
  | _ => false
  end.

(** File handles and response bodies that the events leave open. *)
Fixpoint files_open (t : list event) : Z :=
  match t with
  | [] => 0
  | EvOpen _ :: t' => 1 + files_open t'
  | EvFileClose _ :: t' => files_open t' - 1
  | _ :: t' => files_open t'
  end.

Fixpoint bodies_open (t : list event) : Z :=
  match t with
  | [] => 0
  | EvDo _ _ _ true :: t' => 1 + bodies_open t'
  | EvBodyClose _ _ :: t' => bodies_open t' - 1
  | _ :: t' => bodies_open t'
  end.

Definition all_released (t : list event) : Prop :=
  files_open t = 0 /\ bodies_open t = 0.

(** ** Worlds to run the program in *)

Module Examples.

(** One regular file at [path]. *)
Definition local_world (path : string) (data : list byte) : World :=
  {| fs := fun p => if String.eqb p path then Some (Regular data) else None;
     url_ok := fun _ => true;
     client_Do := fun _ _ _ => None |}.

Definition zero_bytes (n : Z) : list byte := replicate (Z.to_nat n) x00.

(** [s] cut around the first [c]. *)
Fixpoint cut (c : ascii) (s : string) : option (string * string) :=
  match s with
  | EmptyString => None
  | String c' s' =>
      if Ascii.eqb c' c then Some (EmptyString, s')
      else match cut c s' with
           | Some (before, after) => Some (String c' before, after)
           | None => None
           end
  end.

(** The first and last byte positions of ["bytes=first-last"]. *)
Definition parse_range (r : string) : option (Z * Z) :=
  if HasPrefix r "bytes=" then
    match cut "-" (String.substring 6 (String.length r - 6) r) with
    | Some (first, last) =>
        match strconv.ParseUint first, strconv.ParseUint last with
        | (a, None), (b, None) => Some (a, b)
        | _, _ => None
        end
    | None => None
    end
  else None.

(** A server with one resource of contents [data] and the headers
    [header]: HEAD is answered with the headers alone, GET with the bytes
    of the range asked for, and with nothing when the range cannot be
    read or served. *)
Definition server (header : gmap string (list string)) (data : list byte)
  : World :=
  {| fs := fun _ => None;
     url_ok := fun _ => true;
     client_Do := fun method _ range =>
       if String.eqb method "HEAD" then Some {| Header := header; Body := [] |}
       else
         Some {| Header := header;
                 Body := match range ≫= parse_range with
                         | Some (a, b) =>
                             if a <=? b then bytes_at data a (b - a + 1) else []
                         | None => []
                         end |} |}.

(** A server that declares the length of [data] and byte ranges. *)
Definition range_server (data : list byte) : World :=
  server {[ "Accept-Ranges"%string := ["bytes"%string];
            "Content-Length"%string := [strconv.Itoa (len data)] ]} data.

End Examples.

(** A server that declares the length of [data] and byte ranges, and then
    answers every GET with the whole of [data], whatever the range. *)
Definition deaf_server (data : list byte) : World :=
  {| fs := fun _ => None;
     url_ok := fun _ => true;
     client_Do := fun method _ _ =>
       Some {| Header := {[ "Accept-Ranges"%string := ["bytes"%string];
                            "Content-Length"%string := [strconv.Itoa (len data)] ]};
               Body := if String.eqb method "HEAD" then [] else data |} |}.

(** ** Events by kind *)

(** An event of the network: a request, the close of a response body, the
    cancellation of the context. *)
Definition is_http (e : event) : bool :=
  match e with
  | EvDo _ _ _ _ | EvBodyClose _ _ | EvCancel => true
  | _ => false
  end.

(** An event of the file system. *)
Definition is_file (e : event) : bool :=
  match e with
  | EvOpen _ | EvFileClose _ | EvReadAt _ _ _ => true
  | _ => false
  end.

(** Whether the HEAD request of [readRemoteChunks] is sent and answered. *)
Definition head_is_answered (W : World) (url : string) : bool :=
  url_ok W url &&
  match client_Do W "HEAD" url None with Some _ => true | None => false end.

(** The events of one GET of [readRemoteChunk] that is answered. *)
Definition get_events (url : string) (start n : Z) : list event :=
  [EvDo "GET" url (Some (range_header start n)) true; EvBodyClose "GET" url].

(** ** Reporting an error and leaving: [Check] and [Must] *)

(** [type ErrorData struct { Error bool; Message string }]. *)
Record ErrorData := { Error : bool; Message : string }.

(** How a call that may end the process ends: it returns, or the process
    exits with a status after writing to its standard output, or the call
    panics with an error value. *)
Inductive ending (A : Type) :=
  | Continues (a : A)
  | Exits (status : Z) (stdout : string)
  | Panics (e : error).
Arguments Continues {A} a.
Arguments Exits {A} status stdout.
Arguments Panics {A} e.

Section Reporting.

(** [err.Error()] for the errors that the libraries build, and
    [json.Marshal] on an [ErrorData]. *)
Variable library_message : error -> string.
Variable json_Marshal : ErrorData -> string * option error.

(** [err.Error()]: the errors of [errors.New] and [fmt.Errorf] carry the
    text they were built with. *)
Definition Error_message (e : error) : string :=
  match e with
  | errors_New msg => msg
  | invalid_read n => "invalid read " +:+ strconv.Itoa n
  | _ => library_message e
  end.

(** [Check(err)]. *)
Definition Check (err : option error) : ending unit :=
  match err with
  | None => Continues tt
  | Some e =>
      let res := {| Error := true; Message := Error_message e |} in
      let '(json, err) := json_Marshal res in
      match err with
      | Some e' => Panics e'
      | None => Exits 0 json
      end
  end.

(** [Must(t, err)]. *)
Definition Must {T} (t : T) (err : option error) : ending T :=
  match Check err with
  | Continues _ => Continues t
  | Exits status stdout => Exits status stdout
  | Panics e => Panics e
  end.

End Reporting.

(** ** Machine integers *)

Lemma wrap64_id z : is_int64 z -> wrap64 z = z.
Proof.
  unfold is_int64, min_int64, max_int64, wrap64. intros H.
  rewrite Z.mod_small; lia.
Qed.

Lemma wrapu64_id z : is_uint64 z -> wrapu64 z = z.
Proof.
  unfold is_uint64, max_uint64, wrapu64. intros H.
  rewrite Z.mod_small; lia.
Qed.

Lemma wrapu64_range z : is_uint64 (wrapu64 z).
Proof.
  unfold is_uint64, max_uint64, wrapu64.
  pose proof (Z.mod_pos_bound z (2 ^ 64)). lia.
Qed.

Lemma wrapu64_add_l a b : wrapu64 (wrapu64 a + b) = wrapu64 (a + b).
Proof. unfold wrapu64. apply Zplus_mod_idemp_l. Qed.

Lemma wrapu64_add_r a b : wrapu64 (a + wrapu64 b) = wrapu64 (a + b).
Proof. unfold wrapu64. apply Zplus_mod_idemp_r. Qed.

(** ** Reasoning about runs and slices *)

Ltac run_unfold :=
  unfold mbind, mret, run_bind, run_ret, bind, ret, emit, panic, defer in *.

Lemma len_nonneg {A} (l : list A) : 0 <= len l.
Proof. unfold len. lia. Qed.

Lemma len_app {A} (l k : list A) : len (l ++ k) = len l + len k.
Proof. unfold len. rewrite length_app. lia. Qed.

Lemma len_replicate {A} (n : Z) (x : A) :
  0 <= n -> len (replicate (Z.to_nat n) x) = n.
Proof. intros H. unfold len. rewrite length_replicate. lia. Qed.

Lemma len_bytes_at data off n :
  0 <= off -> 0 <= n -> off + n <= len data -> len (bytes_at data off n) = n.
Proof.
  unfold len, bytes_at. intros Hoff Hn Hle.
  rewrite length_take, length_drop. lia.
Qed.

Lemma make_Returned n b t :
  make n = (Returned b, t) ->
  0 <= n /\ b = replicate (Z.to_nat n) x00 /\ t = [].
Proof.
  unfold make. destruct (Z.ltb_spec n 0); run_unfold; intros [= <- <-].
  repeat split; lia.
Qed.

Lemma slice_Returned b lo hi sub t :
  slice b lo hi = (Returned sub, t) ->
  0 <= lo /\ lo <= hi /\ hi <= len b /\ sub = bytes_at b lo (hi - lo) /\ t = [].
Proof.
  unfold slice.
  destruct (Z.leb_spec 0 lo), (Z.leb_spec lo hi), (Z.leb_spec hi (len b));
    run_unfold; cbn; intros [= <- <-]; repeat split; lia.
Qed.

Lemma slice_in_bounds b lo hi :
  0 <= lo -> lo <= hi -> hi <= len b ->
  slice b lo hi = (Returned (bytes_at b lo (hi - lo)), []).
Proof.
  intros H1 H2 H3. unfold slice.
  destruct (Z.leb_spec 0 lo), (Z.leb_spec lo hi), (Z.leb_spec hi (len b));
    try lia. reflexivity.
Qed.

Lemma length_store b lo sub :
  0 <= lo -> lo + len sub <= len b -> length (store b lo sub) = length b.
Proof.
  unfold store, len. intros H1 H2.
  rewrite !length_app, length_take, length_drop. lia.
Qed.

Lemma store_app pre old post lo sub :
  lo = len pre -> length sub = length old ->
  store (pre ++ old ++ post) lo sub = pre ++ sub ++ post.
Proof.
  unfold store, len. intros -> Hlen.
  rewrite Nat2Z.id, take_app_length. f_equal. f_equal.
  rewrite drop_app_ge by lia.
  replace (length pre + length sub - length pre)%nat with (length old) by lia.
  apply drop_app_length.
Qed.

Lemma split_at (b : list byte) lo n :
  0 <= lo -> 0 <= n -> lo + n <= len b ->
  b = take (Z.to_nat lo) b ++ bytes_at b lo n ++ drop (Z.to_nat (lo + n)) b.
Proof.
  unfold bytes_at. intros H1 H2 H3.
  rewrite Z2Nat.inj_add by lia.
  rewrite <- (drop_drop b (Z.to_nat n) (Z.to_nat lo)).
  now rewrite !take_drop.
Qed.

Lemma total_size_nonneg chunks :
  Forall (fun c => 0 <= size c) chunks -> 0 <= total_size chunks.
Proof. induction 1; cbn [total_size] in *; lia. Qed.

Lemma totalBufferNeeded_total_size chunks :
  Forall (fun c => 0 <= size c) chunks -> total_size chunks <= max_int64 ->
  totalBufferNeeded chunks = total_size chunks.
Proof.
  unfold totalBufferNeeded. intros Hsz Hmax.
  enough (forall acc, 0 <= acc -> acc + total_size chunks <= max_int64 ->
            fold_left (fun total span => wrap64 (total + size span)) chunks acc
            = acc + total_size chunks) as Hgen by (apply Hgen; lia).
  clear Hmax. induction Hsz as [|c chunks Hc Hsz IH]; intros acc Hacc Hmax; cbn in *.
  - lia.
  - pose proof (total_size_nonneg _ Hsz).
    rewrite wrap64_id by (unfold is_int64, min_int64, max_int64 in *; lia).
    rewrite IH; lia.
Qed.

Section FillFacts.

Variable fetch : Z -> list byte -> run (list byte * option error).
Variable fileSize : Z.

Hypothesis fetch_len : forall start sub sub' e t,
  fetch start sub = (Returned (sub', e), t) -> length sub' = length sub.

Lemma fill_cons_inv span chunks buf filled fs buf' e t :
  fill fetch fileSize (span :: chunks) buf filled = (Returned (fs, buf', e), t) ->
  let hi := wrap64 (filled + size span) in
  let sub := bytes_at buf filled (hi - filled) in
  0 <= filled /\ filled <= hi /\ hi <= len buf /\
  exists sub' err t1 t2,
    fetch (resolve fileSize span) sub = (Returned (sub', err), t1) /\
    t = t1 ++ t2 /\
    match err with
    | Some e' =>
        fs = fileSize /\ buf' = store buf filled sub' /\ e = Some e' /\ t2 = []
    | None =>
        fill fetch fileSize chunks (store buf filled sub') hi
        = (Returned (fs, buf', e), t2)
    end.
Proof.
  cbn [fill]. run_unfold.
  destruct (slice buf filled _) as [[sub|msg] t0] eqn:Hs; [|discriminate].
  apply slice_Returned in Hs as (H0 & H1 & H2 & -> & ->).
  destruct (fetch _ _) as [[[sub' err]|msg] t1] eqn:Hf; [|discriminate].
  destruct err as [e'|].
  - intros [= <- <- <- <-]. split; [assumption|]. split; [assumption|]. split; [assumption|].
    exists sub', (Some e'), t1, []. repeat split.
  - destruct (fill fetch fileSize chunks _ _) as [[[[fs2 b2] e2]|msg] t2] eqn:Hr;
      [|discriminate].
    intros [= <- <- <- <-]. split; [assumption|]. split; [assumption|]. split; [assumption|].
    exists sub', None, t1, t2. repeat split; assumption.
Qed.

Lemma fill_length chunks : forall buf filled fs buf' e t,
  fill fetch fileSize chunks buf filled = (Returned (fs, buf', e), t) ->
  fs = fileSize /\ length buf' = length buf.
Proof.
  induction chunks as [|span chunks IH]; intros buf filled fs buf' e t H.
  - cbn in H. injection H as <- <- <- <-. auto.
  - apply fill_cons_inv in H as (H0 & H1 & H2 & sub' & err & t1 & t2 & Hf & -> & H).
    assert (Hst : length (store buf filled sub') = length buf).
    { apply length_store; [assumption|].
      apply fetch_len in Hf. unfold len at 1. rewrite Hf.
      fold (len (bytes_at buf filled (wrap64 (filled + size span) - filled))).
      rewrite len_bytes_at; lia. }
    destruct err as [e'|].
    + destruct H as (-> & -> & _). auto.
    + apply IH in H as [-> ->]. auto.
Qed.

(** When every fetch that succeeds leaves [get start n] in its [n]-byte
    sub-slice, a fill that succeeds leaves the spans' bytes in the buffer,
    one after the other in the order of [chunks]. *)
Variable get : Z -> Z -> list byte.

Hypothesis fetch_get : forall start sub sub' t,
  fetch start sub = (Returned (sub', None), t) -> sub' = get start (len sub).

Lemma fill_fetched chunks : forall buf filled fs buf' t,
  fill fetch fileSize chunks buf filled = (Returned (fs, buf', None), t) ->
  Forall (fun c => 0 <= size c) chunks ->
  filled + total_size chunks <= max_int64 ->
  buf' = take (Z.to_nat filled) buf
         ++ concat (map (fun c => get (resolve fileSize c) (size c)) chunks)
         ++ drop (Z.to_nat (filled + total_size chunks)) buf.
Proof.
  induction chunks as [|span chunks IH]; intros buf filled fs buf' t H Hsz Hmax.
  - cbn in H. injection H as <- <- <-. cbn. rewrite Z.add_0_r.
    now rewrite take_drop.
  - apply fill_cons_inv in H as (H0 & H1 & H2 & sub' & err & t1 & t2 & Hf & -> & H).
    apply Forall_cons in Hsz as [Hs Hsz]. cbn [total_size] in Hmax.
    assert (Htot : 0 <= total_size chunks) by now apply total_size_nonneg.
    rewrite wrap64_id in * by (unfold is_int64, min_int64, max_int64 in *; lia).
    replace (filled + size span - filled) with (size span) in Hf by lia.
    pose proof (len_bytes_at buf filled (size span) H0 Hs H2) as Hlen.
    destruct err as [e'|]; [now destruct H as (_ & _ & [=] & _)|].
    pose proof (fetch_len _ _ _ _ _ Hf) as Hlen'.
    apply fetch_get in Hf. rewrite Hlen in Hf. subst sub'.
    assert (Hst : store buf filled (get (resolve fileSize span) (size span))
                  = take (Z.to_nat filled) buf
                    ++ get (resolve fileSize span) (size span)
                    ++ drop (Z.to_nat (filled + size span)) buf).
    { unfold store. do 2 f_equal. f_equal. unfold len in Hlen. lia. }
    rewrite Hst in H. apply IH in H; [|assumption|lia]. subst buf'.
    assert (Hpre : length (take (Z.to_nat filled) buf) = Z.to_nat filled).
    { apply length_take_le. unfold len in H2. lia. }
    assert (Hget : length (get (resolve fileSize span) (size span))
                   = Z.to_nat (size span)).
    { unfold len in Hlen. lia. }
    cbn [map concat total_size].
    rewrite (app_assoc (take _ buf)).
    rewrite take_app_length' by (rewrite length_app; lia).
    rewrite drop_app_ge by (rewrite length_app; lia).
    rewrite length_app, Hpre, Hget, drop_drop, <- !app_assoc.
    do 3 f_equal. f_equal. lia.
Qed.

End FillFacts.

(** ** The two fetches *)

Lemma length_read_into (src buf : list byte) :
  let got := take (length buf) src in
  length (got ++ drop (length got) buf) = length buf.
Proof. cbn. rewrite length_app, length_drop, length_take. lia. Qed.

Lemma read_into_full (src buf : list byte) :
  (length buf <= length src)%nat ->
  let got := take (length buf) src in
  len got = len buf /\ got ++ drop (length got) buf = got.
Proof.
  intros Hle. cbn. unfold len. rewrite length_take_le by assumption.
  split; [reflexivity|]. now rewrite drop_all, app_nil_r.
Qed.

Lemma File_ReadAt_length data buf off n buf' err :
  File_ReadAt data buf off = (n, buf', err) -> length buf' = length buf.
Proof.
  unfold File_ReadAt. destruct (off <? 0); intros [= <- <- <-];
    [reflexivity|apply length_read_into].
Qed.

Lemma File_ReadAt_full data buf off :
  0 <= off -> off + len buf <= len data ->
  File_ReadAt data buf off = (len buf, bytes_at data off (len buf), None).
Proof.
  intros Hoff Hle. unfold File_ReadAt.
  destruct (Z.ltb_spec off 0); [lia|].
  destruct (read_into_full (drop (Z.to_nat off) data) buf) as [Hn Hb].
  { rewrite length_drop. unfold len in Hle. lia. }
  rewrite Hn, Hb, Z.ltb_irrefl. unfold bytes_at, len. now rewrite Nat2Z.id.
Qed.

Lemma File_ReadAt_nil data buf off n buf' :
  File_ReadAt data buf off = (n, buf', None) ->
  0 <= off /\ n = len buf /\ buf' = bytes_at data off (len buf) /\
  (0 < len buf -> off + len buf <= len data).
Proof.
  unfold File_ReadAt. destruct (Z.ltb_spec off 0); [discriminate|].
  set (got := take (length buf) (drop (Z.to_nat off) data)).
  destruct (Z.ltb_spec (len got) (len buf)) as [|Hge]; [discriminate|].
  intros [= <- <-].
  assert (Hlen : length got = length buf).
  { unfold len in Hge. subst got. rewrite length_take in *. lia. }
  assert (Hfit : 0 < len buf -> off + len buf <= len data).
  { subst got. rewrite length_take, length_drop in Hlen. unfold len. lia. }
  repeat split; try assumption.
  - unfold len. now rewrite Hlen.
  - rewrite Hlen, drop_all, app_nil_r. unfold bytes_at, len. now rewrite Nat2Z.id.
Qed.

Lemma io_ReadFull_length body buf n buf' err :
  io_ReadFull body buf = (n, buf', err) -> length buf' = length buf.
Proof. unfold io_ReadFull. intros [= <- <- <-]. apply length_read_into. Qed.

Lemma io_ReadFull_full body buf :
  len buf <= len body ->
  io_ReadFull body buf = (len buf, take (length buf) body, None).
Proof.
  intros Hle. unfold io_ReadFull.
  destruct (read_into_full body buf) as [Hn Hb]; [unfold len in Hle; lia|].
  now rewrite Hn, Hb, Z.ltb_irrefl.
Qed.

Lemma io_ReadFull_nil body buf n buf' :
  io_ReadFull body buf = (n, buf', None) ->
  n = len buf /\ buf' = take (length buf) body /\ len buf <= len body.
Proof.
  unfold io_ReadFull. set (got := take (length buf) body).
  destruct (Z.ltb_spec (len got) (len buf)) as [|Hge]; [discriminate|].
  intros [= <- <-].
  assert (Hlen : length got = length buf).
  { unfold len in Hge. subst got. rewrite length_take in *. lia. }
  repeat split.
  - unfold len. now rewrite Hlen.
  - now rewrite Hlen, drop_all, app_nil_r.
  - subst got. rewrite length_take in Hlen. unfold len. lia.
Qed.

Section Fetches.

Variable W : World.

(** [readChunk] always returns, after one positioned read. *)
Lemma readChunk_run path data off buf :
  exists buf' err,
    readChunk path data off buf
    = (Returned (buf', err), [EvReadAt path off (len buf)]) /\
    length buf' = length buf /\
    (err = None -> buf' = bytes_at data off (len buf)
                   /\ 0 <= off /\ off + len buf <= len data
                   /\ len buf = OSDBChunkSize).
Proof.
  unfold readChunk. run_unfold.
  destruct (File_ReadAt data buf off) as [[n buf'] err] eqn:Hr.
  pose proof (File_ReadAt_length _ _ _ _ _ _ Hr) as Hlen.
  destruct err as [e|].
  - exists buf', (Some e). repeat split; [assumption|discriminate..].
  - apply File_ReadAt_nil in Hr as (Hoff & -> & -> & Hfit).
    destruct (Z.eqb_spec (len buf) OSDBChunkSize) as [Heq|Hne]; cbn.
    + eexists _, None. repeat split; try assumption.
      apply Hfit. rewrite Heq. reflexivity.
    + eexists _, (Some _). repeat split; [assumption|discriminate..].
Qed.

Lemma readChunk_length path data off buf buf' err t :
  readChunk path data off buf = (Returned (buf', err), t) ->
  length buf' = length buf.
Proof.
  destruct (readChunk_run path data off buf) as (b & e & -> & Hlen & _).
  now intros [= <- <- <-].
Qed.

Lemma readChunk_fetched path data off buf buf' t :
  readChunk path data off buf = (Returned (buf', None), t) ->
  buf' = bytes_at data off (len buf).
Proof.
  destruct (readChunk_run path data off buf) as (b & e & -> & _ & H).
  intros [= <- -> <-]. now apply H.
Qed.

(** A span of [OSDBChunkSize] bytes that lies within the file is read in
    full. *)
Lemma readChunk_ok path data off buf :
  0 <= off -> off + OSDBChunkSize <= len data -> len buf = OSDBChunkSize ->
  readChunk path data off buf
  = (Returned (bytes_at data off OSDBChunkSize, None),
     [EvReadAt path off OSDBChunkSize]).
Proof.
  intros Hoff Hfit Hlen. unfold readChunk. run_unfold.
  rewrite File_ReadAt_full by lia. rewrite Hlen. reflexivity.
Qed.

Lemma readRemoteChunk_length url off buf buf' err t :
  readRemoteChunk W url off buf = (Returned (buf', err), t) ->
  length buf' = length buf.
Proof.
  unfold readRemoteChunk. run_unfold.
  destruct (url_ok W url); cbn; [|now intros [= <- <- <-]].
  destruct (client_Do W "GET" url _) as [resp|]; [|now intros [= <- <- <-]].
  destruct (io_ReadFull (Body resp) buf) as [[n b] e] eqn:Hr.
  apply io_ReadFull_length in Hr.
  destruct e; [|destruct (negb _)]; cbn; now intros [= <- <- <-].
Qed.

Lemma readRemoteChunk_fetched url off buf buf' t :
  readRemoteChunk W url off buf = (Returned (buf', None), t) ->
  buf' = remote_bytes W url off (len buf).
Proof.
  unfold readRemoteChunk, remote_bytes. run_unfold.
  destruct (url_ok W url); cbn; [|discriminate].
  destruct (client_Do W "GET" url _) as [resp|]; [|discriminate].
  destruct (io_ReadFull (Body resp) buf) as [[n b] e] eqn:Hr.
  destruct e; [discriminate|]. apply io_ReadFull_nil in Hr as (-> & -> & _).
  destruct (negb _); cbn; [discriminate|]. intros [= <- <-].
  unfold len. now rewrite Nat2Z.id.
Qed.

(** A range request answered with at least the bytes asked for is read in
    full, and the body is closed. *)
Lemma readRemoteChunk_ok url off buf resp :
  url_ok W url = true ->
  client_Do W "GET" url (Some (range_header off (len buf))) = Some resp ->
  len buf <= len (Body resp) ->
  readRemoteChunk W url off buf
  = (Returned (take (length buf) (Body resp), None),
     [EvDo "GET" url (Some (range_header off (len buf))) true;
      EvBodyClose "GET" url]).
Proof.
  intros Hurl Hdo Hlen. unfold readRemoteChunk. run_unfold.
  rewrite Hurl, Hdo. cbn. rewrite io_ReadFull_full by assumption.
  now rewrite Z.eqb_refl.
Qed.

End Fetches.

(** ** Decoding, summing and formatting *)

Lemma byte_val_range b : 0 <= byte_val b < 256.
Proof.
  unfold byte_val. pose proof (Byte.to_N_bounded b) as H.
  lia.
Qed.

Lemma lor_shiftl_add a hi k :
  0 <= k -> 0 <= a < 2 ^ k -> 0 <= hi ->
  Z.lor a (Z.shiftl hi k) = a + 2 ^ k * hi.
Proof.
  intros Hk Ha Hhi.
  rewrite Z.shiftl_mul_pow2 by assumption.
  rewrite <- Z.lxor_lor, <- Z.add_nocarry_lxor, Z.mul_comm; try reflexivity.
  all: rewrite <- Z.shiftl_mul_pow2 by assumption.
  all: apply Z.bits_inj'; intros n Hn; rewrite Z.land_spec, Z.bits_0.
  all: destruct (Z.lt_ge_cases n k) as [Hlt|Hge].
  all: try (rewrite (Z.shiftl_spec_low hi k n) by assumption; apply andb_false_r).
  all: destruct (Z.eq_dec a 0) as [->|Hne]; [now rewrite Z.bits_0|].
  all: rewrite (Z.bits_above_log2 a n); [reflexivity|lia|].
  all: apply Z.lt_le_trans with k; [apply Z.log2_lt_pow2; lia|assumption].
Qed.

Lemma LittleEndian_Uint64_le_word b0 b1 b2 b3 b4 b5 b6 b7 :
  binary.LittleEndian_Uint64 b0 b1 b2 b3 b4 b5 b6 b7
  = Spec.le_word [b0; b1; b2; b3; b4; b5; b6; b7].
Proof.
  unfold binary.LittleEndian_Uint64, Spec.le_word. cbn [foldr].
  pose proof (byte_val_range b0). pose proof (byte_val_range b1).
  pose proof (byte_val_range b2). pose proof (byte_val_range b3).
  pose proof (byte_val_range b4). pose proof (byte_val_range b5).
  pose proof (byte_val_range b6). pose proof (byte_val_range b7).
  generalize dependent (byte_val b0). generalize dependent (byte_val b1).
  generalize dependent (byte_val b2). generalize dependent (byte_val b3).
  generalize dependent (byte_val b4). generalize dependent (byte_val b5).
  generalize dependent (byte_val b6). generalize dependent (byte_val b7).
  intros v7 H7 v6 H6 v5 H5 v4 H4 v3 H3 v2 H2 v1 H1 v0 H0.
  rewrite Z.mul_0_r, Z.add_0_r.
  change 256 with (2 ^ 8).
  repeat (rewrite <- lor_shiftl_add by lia).
  rewrite !Z.shiftl_lor, !Z.shiftl_shiftl by lia.
  reflexivity.
Qed.

Lemma le_word_range bs : (length bs <= 8)%nat -> is_uint64 (Spec.le_word bs).
Proof.
  unfold is_uint64, max_uint64.
  enough (forall k, (length bs <= k)%nat ->
            0 <= Spec.le_word bs < 256 ^ Z.of_nat k) as Hgen.
  { intros Hlen. specialize (Hgen 8%nat Hlen).
    change (256 ^ Z.of_nat 8) with (2 ^ 64) in Hgen. lia. }
  induction bs as [|b bs IH]; intros k Hk; cbn [Spec.le_word foldr length] in *.
  - split; [lia|]. apply Z.pow_pos_nonneg; lia.
  - destruct k as [|k]; [lia|]. specialize (IH k ltac:(lia)).
    fold (Spec.le_word bs). pose proof (byte_val_range b).
    rewrite Nat2Z.inj_succ, Z.pow_succ_r by lia. lia.
Qed.

Lemma decode_le_words n : forall bs,
  length bs = (8 * n)%nat -> binary.decode n bs = Spec.le_words bs.
Proof.
  induction n as [|n IH]; intros bs Hlen.
  - destruct bs; [reflexivity|discriminate].
  - do 8 (destruct bs as [|? bs]; [cbn in Hlen; lia|]).
    cbn [binary.decode Spec.le_words].
    rewrite LittleEndian_Uint64_le_word, IH; [reflexivity|].
    cbn [length] in Hlen. lia.
Qed.

Lemma binary_Read_exact n buf :
  length buf = (8 * n)%nat ->
  binary.Read n buf = (Spec.le_words buf, None).
Proof.
  intros Hlen. unfold binary.Read.
  rewrite io_ReadFull_full by (unfold len; rewrite length_replicate; lia).
  rewrite length_replicate, <- Hlen, firstn_all.
  now rewrite decode_le_words.
Qed.

Lemma fold_sum64 nums : forall acc,
  is_uint64 acc ->
  fold_left (fun h num => wrapu64 (h + num)) nums acc
  = wrapu64 (acc + foldr Z.add 0 nums).
Proof.
  induction nums as [|x nums IH]; intros acc Hacc; cbn [fold_left foldr].
  - now rewrite Z.add_0_r, wrapu64_id.
  - rewrite IH by apply wrapu64_range.
    rewrite wrapu64_add_l. f_equal. lia.
Qed.

(** ** Formatting *)

Lemma string_app_cons c (s1 s2 : string) :
  String c s1 +:+ s2 = String c (s1 +:+ s2).
Proof. reflexivity. Qed.

Lemma string_app_assoc (s1 s2 s3 : string) :
  (s1 +:+ s2) +:+ s3 = s1 +:+ (s2 +:+ s3).
Proof.
  induction s1 as [|c s1 IH]; [reflexivity|].
  rewrite !string_app_cons. now f_equal.
Qed.

Lemma string_app_length (s1 s2 : string) :
  String.length (s1 +:+ s2) = (String.length s1 + String.length s2)%nat.
Proof.
  induction s1 as [|c s1 IH]; [reflexivity|].
  rewrite string_app_cons. cbn. now f_equal.
Qed.

Lemma zeros_snoc n : fmt.zeros n +:+ "0" = fmt.zeros (S n).
Proof.
  induction n as [|n IH]; [reflexivity|].
  cbn [fmt.zeros]. rewrite string_app_cons. now f_equal.
Qed.

Lemma hex_digits_0 k : Spec.hex_digits k 0 = fmt.zeros k.
Proof.
  induction k as [|k IH]; [reflexivity|].
  cbn [Spec.hex_digits]. rewrite Zdiv_0_l, IH. apply zeros_snoc.
Qed.

Lemma hex_digits_length k n : String.length (Spec.hex_digits k n) = k.
Proof.
  revert n. induction k as [|k IH]; intros n; [reflexivity|].
  cbn [Spec.hex_digits]. rewrite string_app_length, IH. cbn. lia.
Qed.

Lemma hex_loop_S fuel u acc :
  fmt.hex_loop (S fuel) u acc
  = if u <? 16 then String (fmt.hex_digit u) acc
    else fmt.hex_loop fuel (Z.shiftr u 4) (String (fmt.hex_digit (Z.land u 15)) acc).
Proof. reflexivity. Qed.

(** The digit loop yields the digits of [u] without the leading zeros that
    [k] positions would hold. *)
Lemma hex_loop_digits k : forall u acc,
  0 <= u < 16 ^ Z.of_nat (S k) ->
  exists m, (m <= S k)%nat /\
    String.length (fmt.hex_loop (S k) u acc) = (m + String.length acc)%nat /\
    fmt.zeros (S k - m) +:+ fmt.hex_loop (S k) u acc
    = Spec.hex_digits (S k) u +:+ acc.
Proof.
  induction k as [|k IH]; intros u acc Hu; rewrite hex_loop_S.
  - change (16 ^ Z.of_nat 1) with 16 in Hu.
    destruct (Z.ltb_spec u 16) as [_|]; [|lia].
    exists 1%nat. repeat split; [lia|].
    cbn [Spec.hex_digits]. rewrite Z.mod_small by lia. reflexivity.
  - destruct (Z.ltb_spec u 16) as [Hlt|Hge].
    + exists 1%nat. repeat split; [lia|].
      change (Spec.hex_digits (S (S k)) u)
        with (Spec.hex_digits (S k) (u / 16) +:+ String (fmt.hex_digit (u mod 16)) "").
      rewrite Z.div_small, Z.mod_small, hex_digits_0, string_app_assoc by lia.
      replace (S (S k) - 1)%nat with (S k) by lia. reflexivity.
    + assert (Hdiv : 0 <= u / 16 < 16 ^ Z.of_nat (S k)).
      { rewrite (Nat2Z.inj_succ (S k)), Z.pow_succ_r in Hu by lia.
        split; [apply Z.div_pos; lia|apply Z.div_lt_upper_bound; lia]. }
      rewrite Z.shiftr_div_pow2 by lia. change (2 ^ 4) with 16.
      change 15 with (Z.ones 4). rewrite Z.land_ones by lia. change (2 ^ 4) with 16.
      destruct (IH (u / 16) (String (fmt.hex_digit (u mod 16)) acc) Hdiv)
        as (m & Hm & Hlen & Heq).
      exists (S m). repeat split; [lia|rewrite Hlen; cbn; lia|].
      replace (S (S k) - S m)%nat with (S k - m)%nat by lia. rewrite Heq.
      change (Spec.hex_digits (S (S k)) u)
        with (Spec.hex_digits (S k) (u / 16) +:+ String (fmt.hex_digit (u mod 16)) "").
      now rewrite string_app_assoc.
Qed.

Lemma string_app_nil_r (s : string) : s +:+ "" = s.
Proof.
  induction s as [|c s IH]; [reflexivity|].
  rewrite string_app_cons. now f_equal.
Qed.

(** [%016x] of a [uint64] is its sixteen hexadecimal digits. *)
Lemma Sprintf_016x_format_hex16 u :
  is_uint64 u -> fmt.Sprintf_016x u = Spec.format_hex16 u.
Proof.
  unfold is_uint64, max_uint64. intros Hu. unfold fmt.Sprintf_016x, Spec.format_hex16.
  destruct (hex_loop_digits 15 u "") as (m & Hm & Hlen & Heq).
  { change (16 ^ Z.of_nat 16) with (2 ^ 64). lia. }
  rewrite Hlen. cbn [String.length]. rewrite Nat.add_0_r, Heq.
  apply string_app_nil_r.
Qed.

Lemma string_forall_app p s1 s2 :
  string_forall p (s1 +:+ s2) = string_forall p s1 && string_forall p s2.
Proof.
  induction s1 as [|c s1 IH]; [reflexivity|].
  rewrite string_app_cons. cbn [string_forall]. now rewrite IH, andb_assoc.
Qed.

Lemma hex_digit_lower d : 0 <= d < 16 -> lower_hex (fmt.hex_digit d) = true.
Proof.
  intros Hd.
  assert (d = 0 \/ d = 1 \/ d = 2 \/ d = 3 \/ d = 4 \/ d = 5 \/ d = 6 \/ d = 7 \/
          d = 8 \/ d = 9 \/ d = 10 \/ d = 11 \/ d = 12 \/ d = 13 \/ d = 14 \/
          d = 15) as Hcases by lia.
  repeat (destruct Hcases as [->|Hcases]; [reflexivity|]). now subst.
Qed.

Lemma hex_digits_lower k n : string_forall lower_hex (Spec.hex_digits k n) = true.
Proof.
  revert n. induction k as [|k IH]; intros n; [reflexivity|].
  cbn [Spec.hex_digits]. rewrite string_forall_app, IH. cbn [string_forall].
  rewrite hex_digit_lower; [reflexivity|]. apply Z.mod_pos_bound. lia.
Qed.

(** ** The metadata probe of the remote reader *)

Section Probe.

Variable W : World.
Variables (url : string) (minimumRequiredSize : Z) (chunks : list chunkInfo).
Variable res : http_response.

Hypothesis url_accepted : url_ok W url = true.
Hypothesis head_answered : client_Do W "HEAD" url None = Some res.

(** No [Accept-Ranges] header, or a first value other than ["bytes"]: the
    call ends after the HEAD request. *)
Lemma readRemoteChunks_rejects :
  (Header res !! "Accept-Ranges" = None \/
   exists v vs, Header res !! "Accept-Ranges" = Some (v :: vs) /\ v <> "bytes"%string) ->
  readRemoteChunks W url minimumRequiredSize chunks
  = (Returned (0, [], Some RangeUnsupportedError),
     [EvDo "HEAD" url None true; EvCancel]).
Proof.
  intros Hranges. unfold readRemoteChunks. rewrite url_accepted, head_answered.
  destruct Hranges as [Hnone|(v & vs & Hsome & Hne)].
  - rewrite Hnone. reflexivity.
  - unfold first_value, index0. rewrite Hsome. cbn.
    apply String.eqb_neq in Hne. rewrite Hne. reflexivity.
Qed.

(** Past the [Accept-Ranges] test, the call is decided by the first
    [Content-Length] value. *)
Lemma readRemoteChunks_accepts ar :
  Header res !! "Accept-Ranges" = Some ("bytes"%string :: ar) ->
  readRemoteChunks W url minimumRequiredSize chunks
  = defer [EvCancel]
      (emit (EvDo "HEAD" url None true);;
       content_length ← first_value (Header res) "Content-Length";
       let '(fileSize, err) := strconv.ParseInt content_length in
       match err with
       | Some e => mret (fileSize, [], Some e)
       | None =>
           if fileSize <? minimumRequiredSize
           then mret (fileSize, [], Some SourceTooSmallError)
           else
             buf ← make (totalBufferNeeded chunks);
             fill (readRemoteChunk W url) fileSize chunks buf 0
       end).
Proof.
  intros Hranges. unfold readRemoteChunks. rewrite url_accepted, head_answered.
  unfold first_value, index0. rewrite Hranges. run_unfold. cbn.
  destruct (default [] (Header res !! "Content-Length")) as [|cl cls];
    [reflexivity|].
  destruct (strconv.ParseInt cl) as [fileSize [e|]]; [reflexivity|].
  destruct (fileSize <? minimumRequiredSize); [reflexivity|].
  destruct (make _) as [[buf|msg] t]; [|reflexivity].
  now destruct (fill _ _ _ _ _) as [r t'].
Qed.

Lemma readRemoteChunks_no_length ar :
  Header res !! "Accept-Ranges" = Some ("bytes"%string :: ar) ->
  Header res !! "Content-Length" = None ->
  readRemoteChunks W url minimumRequiredSize chunks
  = (Panicked "index out of range [0] with length 0",
     [EvDo "HEAD" url None true; EvCancel]).
Proof.
  intros Hranges Hlength. rewrite (readRemoteChunks_accepts ar Hranges).
  unfold first_value, index0. rewrite Hlength. reflexivity.
Qed.

Lemma readRemoteChunks_unparsable ar cl cls n e :
  Header res !! "Accept-Ranges" = Some ("bytes"%string :: ar) ->
  Header res !! "Content-Length" = Some (cl :: cls) ->
  strconv.ParseInt cl = (n, Some e) ->
  readRemoteChunks W url minimumRequiredSize chunks
  = (Returned (n, [], Some e), [EvDo "HEAD" url None true; EvCancel]).
Proof.
  intros Hranges Hlength Hparse. rewrite (readRemoteChunks_accepts ar Hranges).
  unfold first_value, index0. rewrite Hlength. cbn. rewrite Hparse. reflexivity.
Qed.

Lemma readRemoteChunks_sized S :
  remote_size W url S ->
  readRemoteChunks W url minimumRequiredSize chunks
  = defer [EvCancel]
      (emit (EvDo "HEAD" url None true);;
       if S <? minimumRequiredSize
       then mret (S, [], Some SourceTooSmallError)
       else
         buf ← make (totalBufferNeeded chunks);
         fill (readRemoteChunk W url) S chunks buf 0).
Proof.
  intros (_ & res' & ar & cl & cls & Hhead & Hranges & Hlength & Hparse).
  rewrite head_answered in Hhead. injection Hhead as <-.
  rewrite (readRemoteChunks_accepts ar Hranges).
  unfold first_value, index0. rewrite Hlength. cbn. rewrite Hparse.
  now destruct (if S <? _ then _ else _) as [r t].
Qed.

End Probe.

(** [ParseInt] fails with a [NumError], and succeeds with an [int64]. *)
Lemma ParseUint_loop_nonneg s : forall n v e,
  0 <= n -> strconv.ParseUint_loop s n = (v, e) -> 0 <= v.
Proof.
  induction s as [|c s IH]; intros n v e Hn; cbn [strconv.ParseUint_loop].
  - intros [= <- _]. assumption.
  - destruct (strconv.digit c) as [d|]; [|intros [= <- _]; lia].
    destruct (n >=? _); [intros [= <- _]; unfold max_uint64; lia|].
    destruct (_ || _); [intros [= <- _]; unfold max_uint64; lia|].
    apply IH. apply wrapu64_range.
Qed.

Lemma ParseInt_error s n e :
  strconv.ParseInt s = (n, Some e) -> MalformedResponseError e.
Proof.
  unfold strconv.ParseInt, MalformedResponseError.
  destruct s as [|c s]; [intros [= _ <-]; eauto|].
  destruct (strconv.ParseUint _) as [un [[]|]];
    repeat (destruct (_ && _)); intros [= _ <-]; eauto.
Qed.

Lemma ParseInt_int64 s n : strconv.ParseInt s = (n, None) -> is_int64 n.
Proof.
  unfold strconv.ParseInt, is_int64, min_int64, max_int64.
  destruct s as [|c s]; [discriminate|].
  match goal with |- context [strconv.ParseUint ?d] => generalize d end.
  intros digits. destruct (strconv.ParseUint digits) as [un e] eqn:Hun.
  assert (0 <= un) as Hnonneg.
  { unfold strconv.ParseUint in Hun.
    destruct digits; [now injection Hun as <- _|].
    eapply ParseUint_loop_nonneg; [|exact Hun]. lia. }
  assert (forall neg : bool,
            (if negb neg && (un >=? 2 ^ 63)
             then (2 ^ 63 - 1, Some (NumError "ParseInt" ErrRange))
             else if neg && (un >? 2 ^ 63)
             then (- 2 ^ 63, Some (NumError "ParseInt" ErrRange))
             else (if neg then - un else un, None)) = (n, None) ->
            - 2 ^ 63 <= n <= 2 ^ 63 - 1) as Hcases.
  { intros [|]; cbn [negb andb].
    - destruct (Z.gtb_spec un (2 ^ 63)); [discriminate|]. intros [= <-]. lia.
    - destruct (Z.geb_spec un (2 ^ 63)); [discriminate|]. intros [= <-]. lia. }
  destruct e as [[]|]; [discriminate|apply Hcases..].
Qed.

(** ** The loop as a whole *)

Lemma slice_silent b lo hi r t : slice b lo hi = (r, t) -> t = [].
Proof. unfold slice. destruct (_ && _); now intros [= <- <-]. Qed.

Section FillRuns.

Variable fetch : Z -> list byte -> run (list byte * option error).
Variable fileSize : Z.

(** Every event of the loop is an event of a fetch. *)
Lemma fill_events (P : event -> Prop) :
  (forall start sub r t, fetch start sub = (r, t) -> Forall P t) ->
  forall chunks buf filled r t,
    fill fetch fileSize chunks buf filled = (r, t) -> Forall P t.
Proof.
  intros Hfetch. induction chunks as [|span chunks IH]; intros buf filled r t.
  - cbn. intros [= <- <-]. constructor.
  - cbn [fill]. run_unfold.
    destruct (slice buf filled _) as [[sub|msg] t0] eqn:Hs;
      apply slice_silent in Hs as ->; [|intros [= <- <-]; constructor].
    destruct (fetch _ _) as [[[sub' err]|msg] t1] eqn:Hf;
      [|intros [= <- <-]; eauto].
    apply Hfetch in Hf. destruct err as [e|].
    + intros [= <- <-]. cbn. now rewrite app_nil_r.
    + destruct (fill _ _ _ _ _) as [r2 t2] eqn:Hr. apply IH in Hr.
      intros [= <- <-]. cbn. now apply Forall_app.
Qed.

(** When every fetch succeeds, so does the loop. *)
Lemma fill_ok chunks : forall buf filled,
  (forall start sub sub' e t,
     fetch start sub = (Returned (sub', e), t) -> length sub' = length sub) ->
  Forall (fun c => 0 <= size c /\
                   forall sub, len sub = size c ->
                     exists sub' t,
                       fetch (resolve fileSize c) sub = (Returned (sub', None), t))
         chunks ->
  0 <= filled -> filled + total_size chunks <= len buf -> len buf <= max_int64 ->
  exists buf' t,
    fill fetch fileSize chunks buf filled = (Returned (fileSize, buf', None), t).
Proof.
  intros buf filled Hlen Hall. revert buf filled.
  induction Hall as [|span chunks [Hsz Hspan] Hall IH]; intros buf filled H0 Hfit Hmax.
  - cbn. eauto.
  - cbn [total_size] in Hfit.
    assert (0 <= total_size chunks) as Htot.
    { apply total_size_nonneg. eapply Forall_impl; [exact Hall|]. now intros c [? _]. }
    cbn [fill].
    rewrite wrap64_id by (unfold is_int64, min_int64, max_int64 in *; lia).
    rewrite slice_in_bounds by lia.
    replace (filled + size span - filled) with (size span) by lia.
    destruct (Hspan (bytes_at buf filled (size span))) as (sub' & t1 & Hf).
    { apply len_bytes_at; lia. }
    run_unfold. rewrite Hf.
    destruct (IH (store buf filled sub') (filled + size span)) as (buf' & t2 & Hr).
    + lia.
    + apply Hlen in Hf. unfold len. rewrite length_store.
      * unfold len in Hfit. lia.
      * assumption.
      * unfold len at 1. rewrite Hf.
        fold (len (bytes_at buf filled (size span))).
        rewrite len_bytes_at; lia.
    + apply Hlen in Hf. unfold len. rewrite length_store.
      * unfold len in Hmax. lia.
      * assumption.
      * unfold len at 1. rewrite Hf.
        fold (len (bytes_at buf filled (size span))).
        rewrite len_bytes_at; lia.
    + rewrite Hr. eauto.
Qed.

End FillRuns.

(** ** The local reader *)

Lemma files_open_app t1 t2 : files_open (t1 ++ t2) = files_open t1 + files_open t2.
Proof.
  induction t1 as [|e t1 IH]; [reflexivity|].
  destruct e; cbn [app files_open]; lia.
Qed.

Lemma bodies_open_app t1 t2 :
  bodies_open (t1 ++ t2) = bodies_open t1 + bodies_open t2.
Proof.
  induction t1 as [|e t1 IH]; [reflexivity|].
  destruct e as [| | |m u r []| |]; cbn [app bodies_open]; lia.
Qed.

Lemma is_remote_readChunks W filePath minimumRequiredSize chunks :
  is_remote filePath = true ->
  readChunks W filePath minimumRequiredSize chunks
  = readRemoteChunks W filePath OSDBChunkSize chunks.
Proof. unfold readChunks, is_remote. now intros ->. Qed.

Lemma local_readChunks W filePath minimumRequiredSize chunks data :
  is_remote filePath = false ->
  fs W filePath = Some (Regular data) ->
  readChunks W filePath minimumRequiredSize chunks
  = let '(r, t) :=
      if len data <? minimumRequiredSize
      then mret (len data, [], Some SourceTooSmallError)
      else
        buf ← make (totalBufferNeeded chunks);
        fill (readChunk filePath data) (len data) chunks buf 0
    in (r, EvOpen filePath :: t).
Proof.
  unfold readChunks, is_remote. intros -> ->. run_unfold.
  now destruct (if _ <? _ then _ else _) as [r t].
Qed.

Lemma readChunk_events path data start sub r t :
  readChunk path data start sub = (r, t) ->
  Forall (fun e => exists off n, e = EvReadAt path off n) t.
Proof.
  destruct (readChunk_run path data start sub) as (b & e & -> & _).
  intros [= <- <-]. repeat constructor. eauto.
Qed.

Lemma totalBufferNeeded_spans : totalBufferNeeded spans = 2 * OSDBChunkSize.
Proof. reflexivity. Qed.

(** ** Allocation followed by the loop *)

Section FreshFill.

Variable fetch : Z -> list byte -> run (list byte * option error).
Variable get : Z -> Z -> list byte.
Variables (fileSize : Z) (chunks : list chunkInfo).

Hypothesis fetch_len : forall start sub sub' e t,
  fetch start sub = (Returned (sub', e), t) -> length sub' = length sub.
Hypothesis fetch_get : forall start sub sub' t,
  fetch start sub = (Returned (sub', None), t) -> sub' = get start (len sub).
Hypothesis sizes_nonneg : Forall (fun c => 0 <= size c) chunks.
Hypothesis sizes_fit : total_size chunks <= max_int64.

Lemma fresh_fill_length fs buf e t :
  fresh_fill fetch fileSize chunks = (Returned (fs, buf, e), t) ->
  fs = fileSize /\ len buf = total_size chunks.
Proof.
  unfold fresh_fill. run_unfold.
  rewrite totalBufferNeeded_total_size by assumption.
  destruct (make _) as [[buf0|msg] t0] eqn:Hmk; [|discriminate].
  apply make_Returned in Hmk as (Hn & -> & ->).
  destruct (fill _ _ _ _ _) as [r t1] eqn:Hr. intros [= -> <-].
  apply (fill_length _ _ fetch_len) in Hr as [-> Hlen].
  split; [reflexivity|]. unfold len. rewrite Hlen, length_replicate. lia.
Qed.

Lemma fresh_fill_fetched fs buf t :
  fresh_fill fetch fileSize chunks = (Returned (fs, buf, None), t) ->
  buf = concat (map (fun c => get (resolve fileSize c) (size c)) chunks).
Proof.
  unfold fresh_fill. run_unfold.
  rewrite totalBufferNeeded_total_size by assumption.
  destruct (make _) as [[buf0|msg] t0] eqn:Hmk; [|discriminate].
  apply make_Returned in Hmk as (Hn & -> & ->).
  destruct (fill _ _ _ _ _) as [r t1] eqn:Hr. intros [= -> <-].
  apply (fill_fetched _ _ fetch_len get fetch_get) in Hr;
    [|assumption|lia].
  rewrite Hr. cbn [Z.to_nat take app]. rewrite Z.add_0_l.
  rewrite drop_ge by (rewrite length_replicate; lia).
  apply app_nil_r.
Qed.

Lemma fresh_fill_ok :
  Forall (fun c => forall sub, len sub = size c ->
                     exists sub' t,
                       fetch (resolve fileSize c) sub = (Returned (sub', None), t))
         chunks ->
  exists t,
    fresh_fill fetch fileSize chunks
    = (Returned (fileSize,
                 concat (map (fun c => get (resolve fileSize c) (size c)) chunks),
                 None), t).
Proof.
  intros Hall. unfold fresh_fill.
  destruct (fill_ok fetch fileSize chunks
              (replicate (Z.to_nat (total_size chunks)) x00) 0 fetch_len)
    as (buf & t & Hr).
  - apply Forall_and. split; assumption.
  - lia.
  - pose proof (total_size_nonneg _ sizes_nonneg). rewrite len_replicate; lia.
  - pose proof (total_size_nonneg _ sizes_nonneg). rewrite len_replicate; lia.
  - assert (fresh_fill fetch fileSize chunks
            = (Returned (fileSize, buf, None), t)) as Hrun.
    { unfold fresh_fill, make. run_unfold.
      rewrite totalBufferNeeded_total_size by assumption.
      pose proof (total_size_nonneg _ sizes_nonneg).
      destruct (Z.ltb_spec (total_size chunks) 0); [lia|]. now rewrite Hr. }
    rewrite <- (fresh_fill_fetched _ _ _ Hrun). exists t. exact Hrun.
Qed.

End FreshFill.

(** ** The chunk reader on a source of known size *)

Section Reader.

Variable W : World.
Variables (filePath : string) (minimumRequiredSize : Z).
Variable chunks : list chunkInfo.

(** The two readers as the probe followed by [fresh_fill]. *)
Lemma local_readChunks_fill data :
  is_remote filePath = false ->
  fs W filePath = Some (Regular data) ->
  minimumRequiredSize <= len data ->
  readChunks W filePath minimumRequiredSize chunks
  = let '(r, t) := fresh_fill (readChunk filePath data) (len data) chunks in
    (r, EvOpen filePath :: t).
Proof.
  intros Hlocal Hfile Hmin. rewrite (local_readChunks _ _ _ _ data) by assumption.
  destruct (Z.ltb_spec (len data) minimumRequiredSize); [lia|reflexivity].
Qed.

Lemma remote_readChunks_fill S :
  is_remote filePath = true ->
  remote_size W filePath S ->
  OSDBChunkSize <= S ->
  readChunks W filePath minimumRequiredSize chunks
  = let '(r, t) := fresh_fill (readRemoteChunk W filePath) S chunks in
    (r, EvDo "HEAD" filePath None true :: t ++ [EvCancel]).
Proof.
  intros Hremote Hsize Hmin. rewrite is_remote_readChunks by assumption.
  pose proof Hsize as (Hurl & res & _ & _ & _ & Hhead & _).
  rewrite (readRemoteChunks_sized W _ _ _ res Hurl Hhead S Hsize).
  destruct (Z.ltb_spec S OSDBChunkSize); [lia|].
  change (buf ← make (totalBufferNeeded chunks);
          fill (readRemoteChunk W filePath) S chunks buf 0)
    with (fresh_fill (readRemoteChunk W filePath) S chunks).
  now destruct (fresh_fill _ _ _) as [[r|msg] t].
Qed.

Lemma readChunks_too_small S :
  source_size W filePath S ->
  S < effective_minimum filePath minimumRequiredSize ->
  readChunks W filePath minimumRequiredSize chunks
  = (Returned (S, [], Some SourceTooSmallError),
     if is_remote filePath
     then [EvDo "HEAD" filePath None true; EvCancel]
     else [EvOpen filePath]).
Proof.
  unfold source_size, effective_minimum.
  destruct (is_remote filePath) eqn:Hremote; intros Hsize Hsmall.
  - rewrite is_remote_readChunks by assumption.
    pose proof Hsize as (Hurl & res & _ & _ & _ & Hhead & _).
    rewrite (readRemoteChunks_sized W _ _ _ res Hurl Hhead S Hsize).
    destruct (Z.ltb_spec S OSDBChunkSize); [reflexivity|lia].
  - destruct Hsize as (data & Hfile & -> & _).
    rewrite (local_readChunks _ _ _ _ data) by assumption.
    destruct (Z.ltb_spec (len data) minimumRequiredSize); [reflexivity|lia].
Qed.

End Reader.

(** A remote read that succeeds went through the whole probe. *)
Lemma readRemoteChunks_success W url minimumRequiredSize chunks fs buf t :
  readRemoteChunks W url minimumRequiredSize chunks = (Returned (fs, buf, None), t) ->
  exists S t',
    remote_size W url S /\ minimumRequiredSize <= S /\
    fresh_fill (readRemoteChunk W url) S chunks = (Returned (fs, buf, None), t') /\
    t = EvDo "HEAD" url None true :: t' ++ [EvCancel].
Proof.
  unfold readRemoteChunks, remote_size, first_value, index0, defer. run_unfold.
  destruct (url_ok W url) eqn:Hurl; [|cbn; intros [=]].
  destruct (client_Do W "HEAD" url None) as [res|] eqn:Hhead; [|cbn; intros [=]].
  destruct (Header res !! "Accept-Ranges") as [[|v ar]|] eqn:Hranges;
    [cbn; intros [=]| |cbn; intros [=]].
  cbn. destruct (String.eqb_spec v "bytes") as [->|]; [|cbn; intros [=]].
  destruct (Header res !! "Content-Length") as [[|cl cls]|] eqn:Hlength;
    [cbn; intros [=]| |cbn; intros [=]].
  cbn.
  destruct (strconv.ParseInt cl) as [S [e|]] eqn:Hparse; [cbn; intros [=]|].
  destruct (Z.ltb_spec S minimumRequiredSize); [cbn; intros [=]|].
  destruct (make (totalBufferNeeded chunks)) as [[buf0|msg] t0] eqn:Hmake;
    [|cbn; intros [=]].
  destruct (fill _ _ _ _ _) as [r t1] eqn:Hfill. cbn. intros [= -> <-].
  exists S, (t0 ++ t1). repeat split; try assumption; [eauto 10|].
  unfold fresh_fill. run_unfold. now rewrite Hmake, Hfill.
Qed.

(** A local read that succeeds found a regular file that is large enough. *)
Lemma local_readChunks_success W filePath minimumRequiredSize chunks fs' buf t :
  is_remote filePath = false ->
  readChunks W filePath minimumRequiredSize chunks = (Returned (fs', buf, None), t) ->
  exists data t',
    fs W filePath = Some (Regular data) /\ minimumRequiredSize <= len data /\
    fresh_fill (readChunk filePath data) (len data) chunks
    = (Returned (fs', buf, None), t') /\
    t = EvOpen filePath :: t'.
Proof.
  intros Hlocal. unfold readChunks. fold (is_remote filePath). rewrite Hlocal.
  run_unfold.
  destruct (fs W filePath) as [[data|data]|]; [|cbn; intros [=]..].
  destruct (Z.ltb_spec (len data) minimumRequiredSize); [cbn; intros [=]|].
  destruct (make (totalBufferNeeded chunks)) as [[buf0|msg] t0] eqn:Hmake;
    [|cbn; intros [=]].
  destruct (fill _ _ _ _ _) as [r t1] eqn:Hfill. cbn. intros [= -> <-].
  exists data, (t0 ++ t1). repeat split; try assumption.
  unfold fresh_fill. run_unfold. now rewrite Hmake, Hfill.
Qed.

(** A read that succeeds returns a buffer for all the spans. *)
Lemma readChunks_success_length W filePath minimumRequiredSize chunks fs buf t :
  Forall (fun c => 0 <= size c) chunks ->
  total_size chunks <= max_int64 ->
  readChunks W filePath minimumRequiredSize chunks = (Returned (fs, buf, None), t) ->
  len buf = total_size chunks.
Proof.
  intros Hsizes Hfit Hrun. destruct (is_remote filePath) eqn:Hremote.
  - rewrite is_remote_readChunks in Hrun by assumption.
    apply readRemoteChunks_success in Hrun as (S & t' & _ & _ & Hfill & _).
    eapply fresh_fill_length; [|assumption..|exact Hfill].
    apply readRemoteChunk_length.
  - apply local_readChunks_success in Hrun as (data & t' & _ & _ & Hfill & _);
      [|assumption].
    eapply fresh_fill_length; [|assumption..|exact Hfill].
    apply readChunk_length.
Qed.

(** ** What a read returns *)

Lemma resolve_nonneg S c : 0 <= offset c -> resolve S c = offset c.
Proof. unfold resolve. intros H. destruct (Z.ltb_spec (offset c) 0); [lia|reflexivity]. Qed.

Lemma resolve_negative S c :
  offset c < 0 -> is_int64 (offset c) -> 0 <= S <= max_int64 ->
  resolve S c = S + offset c.
Proof.
  unfold resolve, is_int64. intros Hneg Ho HS.
  destruct (Z.ltb_spec (offset c) 0); [|lia].
  rewrite wrap64_id; [lia|]. unfold is_int64, min_int64, max_int64 in *. lia.
Qed.

Lemma resolve_cases S c :
  is_int64 (offset c) -> 0 <= S <= max_int64 ->
  resolve S c = if offset c <? 0 then S + offset c else offset c.
Proof.
  intros Ho HS. destruct (Z.ltb_spec (offset c) 0).
  - now apply resolve_negative.
  - now apply resolve_nonneg.
Qed.

Lemma remote_size_unique W url S S' :
  remote_size W url S -> remote_size W url S' -> S = S'.
Proof.
  intros (_ & res & ar & cl & cls & Hhead & Hranges & Hlength & Hparse)
         (_ & res' & ar' & cl' & cls' & Hhead' & Hranges' & Hlength' & Hparse').
  congruence.
Qed.

Lemma remote_size_int64 W url S : remote_size W url S -> is_int64 S.
Proof.
  intros (_ & res & ar & cl & cls & _ & _ & _ & Hparse).
  eapply ParseInt_int64, Hparse.
Qed.

Section Reads.

Variable W : World.
Variables (filePath : string) (minimumRequiredSize : Z).
Variable chunks : list chunkInfo.
Variable S : Z.

Hypothesis size_known : source_size W filePath S.
Hypothesis sizes_fit : total_size chunks <= max_int64.

(** The buffer of a read that succeeds holds the bytes of the spans at their
    resolved offsets, in the order of the spans. *)
Lemma readChunks_fetched fs buf t :
  Forall (fun c => 0 <= size c) chunks ->
  readChunks W filePath minimumRequiredSize chunks = (Returned (fs, buf, None), t) ->
  fs = S /\ 0 <= S <= max_int64 /\
  buf = concat (map (fun c => source_bytes W filePath (resolve S c) (size c)) chunks).
Proof.
  intros Hsizes Hrun. unfold source_size, source_bytes in *.
  destruct (is_remote filePath) eqn:Hremote.
  - rewrite is_remote_readChunks in Hrun by assumption.
    apply readRemoteChunks_success in Hrun as (S' & t' & HS' & Hmin & Hfill & _).
    rewrite <- (remote_size_unique _ _ _ _ size_known HS') in *.
    pose proof (remote_size_int64 _ _ _ size_known) as Hint.
    unfold is_int64, OSDBChunkSize in *.
    split; [|split; [lia|]].
    + exact (proj1 (fresh_fill_length _ _ _ (readRemoteChunk_length W filePath)
                      Hsizes sizes_fit _ _ _ _ Hfill)).
    + exact (fresh_fill_fetched _ (remote_bytes W filePath) _ _
               (readRemoteChunk_length W filePath)
               (readRemoteChunk_fetched W filePath)
               Hsizes sizes_fit _ _ _ Hfill).
  - destruct size_known as (data & Hfile & -> & Hmax).
    apply local_readChunks_success in Hrun as (data' & t' & Hfile' & Hmin & Hfill & _);
      [|assumption].
    rewrite Hfile in Hfile'. injection Hfile' as <-. rewrite Hfile.
    pose proof (len_nonneg data).
    split; [|split; [lia|]].
    + exact (proj1 (fresh_fill_length _ _ _ (readChunk_length filePath data)
                      Hsizes sizes_fit _ _ _ _ Hfill)).
    + exact (fresh_fill_fetched _ (bytes_at data) _ _
               (readChunk_length filePath data)
               (readChunk_fetched filePath data)
               Hsizes sizes_fit _ _ _ Hfill).
Qed.

(** Spans that the source yields in full are read, given a source that is
    large enough for the minimum that decides. *)
Lemma readChunks_ok :
  effective_minimum filePath minimumRequiredSize <= S ->
  Forall (readable W filePath S) chunks ->
  exists t,
    readChunks W filePath minimumRequiredSize chunks
    = (Returned (S, concat (map (fun c => source_bytes W filePath (resolve S c) (size c))
                                chunks), None), t).
Proof.
  intros Hmin Hreadable. unfold effective_minimum, source_size, source_bytes, readable in *.
  assert (Forall (fun c => 0 <= size c) chunks) as Hsizes.
  { eapply Forall_impl; [exact Hreadable|]. intros c [-> _]. unfold OSDBChunkSize. lia. }
  destruct (is_remote filePath) eqn:Hremote.
  - rewrite (remote_readChunks_fill W _ _ _ S) by assumption.
    destruct (fresh_fill_ok (readRemoteChunk W filePath) (remote_bytes W filePath)
                S chunks) as (t & ->); try assumption.
    + apply readRemoteChunk_length.
    + apply readRemoteChunk_fetched.
    + eapply Forall_impl; [exact Hreadable|].
      intros c (Hc & resp & Hget & Hbody) sub Hsub. rewrite Hc in Hsub.
      destruct size_known as (Hurl & _).
      eexists _, _. apply (readRemoteChunk_ok W _ _ _ resp Hurl); rewrite Hsub;
        assumption.
    + eauto.
  - destruct size_known as (data & Hfile & -> & Hmax). rewrite Hfile.
    rewrite (local_readChunks_fill W _ _ _ data) by assumption.
    destruct (fresh_fill_ok (readChunk filePath data) (bytes_at data)
                (len data) chunks) as (t & ->); try assumption.
    + apply readChunk_length.
    + apply readChunk_fetched.
    + eapply Forall_impl; [exact Hreadable|].
      intros c (Hc & Hlo & Hhi) sub Hsub. rewrite Hc in Hsub.
      eexists _, _. now apply readChunk_ok.
    + eauto.
Qed.

End Reads.

(** ** The hash folder after the read *)

Lemma spans_sizes : Forall (fun c => 0 <= size c) spans.
Proof. repeat constructor; discriminate. Qed.

Lemma spans_total : total_size spans = 2 * OSDBChunkSize.
Proof. reflexivity. Qed.

Lemma OSDBHashFile_failure W filePath fileSize buf e t :
  readChunks W filePath OSDBChunkSize spans = (Returned (fileSize, buf, Some e), t) ->
  OSDBHashFile W filePath = (Returned (""%string, Some e), t).
Proof.
  intros Hrun. unfold OSDBHashFile. run_unfold. rewrite Hrun. cbn.
  now rewrite app_nil_r.
Qed.

(** After a read that succeeds, the folder decodes the whole buffer, and
    returns what the specification's [computeIdentityHash] gives. *)
Lemma OSDBHashFile_success W filePath fileSize buf t :
  readChunks W filePath OSDBChunkSize spans = (Returned (fileSize, buf, None), t) ->
  OSDBHashFile W filePath
  = (Returned (Spec.computeIdentityHash buf fileSize, None), t).
Proof.
  intros Hrun.
  assert (length buf = (8 * Z.to_nat (OSDBChunkSize * 2 / 8))%nat) as Hlen.
  { pose proof (readChunks_success_length _ _ _ _ _ _ _ spans_sizes
                  ltac:(rewrite spans_total; unfold OSDBChunkSize, max_int64; lia) Hrun)
      as Hlen.
    rewrite spans_total in Hlen. unfold len, OSDBChunkSize in *.
    change (Z.to_nat (65536 * 2 / 8)) with (Z.to_nat 16384). lia. }
  unfold OSDBHashFile. run_unfold. rewrite Hrun.
  rewrite (binary_Read_exact _ _ Hlen). cbn [fst snd].
  rewrite fold_sum64 by (unfold is_uint64, max_uint64; lia).
  rewrite Z.add_0_l, wrapu64_add_r, app_nil_r.
  rewrite Sprintf_016x_format_hex16 by apply wrapu64_range.
  unfold Spec.computeIdentityHash, Spec.sum64. fold (wrapu64 (foldr Z.add 0 (Spec.le_words buf))).
  reflexivity.
Qed.

Lemma computeIdentityHash_shape buffer totalSize :
  String.length (Spec.computeIdentityHash buffer totalSize) = 16%nat /\
  string_forall lower_hex (Spec.computeIdentityHash buffer totalSize) = true.
Proof.
  unfold Spec.computeIdentityHash, Spec.format_hex16.
  split; [apply hex_digits_length|apply hex_digits_lower].
Qed.

Lemma le_words_length n : forall bs,
  length bs = (8 * n)%nat -> length (Spec.le_words bs) = n.
Proof.
  induction n as [|n IH]; intros bs Hlen.
  - destruct bs; [reflexivity|discriminate].
  - do 8 (destruct bs as [|? bs]; [cbn in Hlen; lia|]).
    cbn [Spec.le_words length]. rewrite IH; [reflexivity|].
    cbn [length] in Hlen. lia.
Qed.

Lemma spans_readable W filePath S :
  source_size W filePath S -> OSDBChunkSize <= S ->
  reads_succeed W filePath S ->
  Forall (readable W filePath S) spans.
Proof.
  intros Hsize Hmin Hreads.
  assert (0 <= S <= max_int64) as HS.
  { unfold source_size in Hsize. destruct (is_remote filePath).
    - apply remote_size_int64 in Hsize. unfold is_int64, OSDBChunkSize in *. lia.
    - destruct Hsize as (data & _ & -> & ?). pose proof (len_nonneg data). lia. }
  assert (resolve S {| offset := 0; size := OSDBChunkSize |} = 0) as H0
    by reflexivity.
  assert (resolve S {| offset := - OSDBChunkSize; size := OSDBChunkSize |}
          = S - OSDBChunkSize) as H1.
  { rewrite resolve_negative; cbn [offset]; unfold OSDBChunkSize;
      [lia|lia| |assumption].
    unfold is_int64, min_int64, max_int64. lia. }
  unfold spans. constructor; [|constructor; [|constructor]].
  all: unfold readable; cbn [size]; rewrite ?H0, ?H1; (split; [reflexivity|]).
  all: destruct (is_remote filePath) eqn:Hremote;
    [apply Hreads; auto|unfold OSDBChunkSize in *; lia].
Qed.

(** A source of at least one chunk whose reads succeed is hashed. *)
Lemma OSDBHashFile_ok W filePath S :
  source_size W filePath S -> OSDBChunkSize <= S ->
  reads_succeed W filePath S ->
  exists buf t,
    readChunks W filePath OSDBChunkSize spans = (Returned (S, buf, None), t) /\
    OSDBHashFile W filePath = (Returned (Spec.computeIdentityHash buf S, None), t).
Proof.
  intros Hsize Hmin Hreads.
  destruct (readChunks_ok W filePath OSDBChunkSize spans S Hsize) as (t & Hrun).
  - rewrite spans_total. unfold OSDBChunkSize, max_int64. lia.
  - unfold effective_minimum. now destruct (is_remote filePath).
  - now apply spans_readable.
  - eexists _, t. split; [exact Hrun|]. now apply OSDBHashFile_success.
Qed.

(** ** A single span *)

Lemma store_whole b sub : length sub = length b -> store b 0 sub = sub.
Proof.
  intros Hlen. unfold store. change (Z.to_nat 0) with 0%nat.
  now rewrite take_0, Nat.add_0_l, Hlen, drop_all, app_nil_r.
Qed.

Lemma fresh_fill_single fetch fileSize c got t :
  size c = OSDBChunkSize ->
  (forall sub, len sub = OSDBChunkSize ->
     fetch (resolve fileSize c) sub = (Returned (got, None), t)) ->
  len got = OSDBChunkSize ->
  fresh_fill fetch fileSize [c] = (Returned (fileSize, got, None), t).
Proof.
  intros Hc Hfetch Hgot. unfold fresh_fill, totalBufferNeeded. cbn [fold_left fill].
  rewrite Hc. change (wrap64 (0 + OSDBChunkSize)) with OSDBChunkSize.
  unfold make. change (OSDBChunkSize <? 0) with false. cbv iota.
  set (buf := replicate (Z.to_nat OSDBChunkSize) x00).
  assert (len buf = OSDBChunkSize) as Hbuf by now apply len_replicate.
  run_unfold. rewrite slice_in_bounds by (rewrite ?Hbuf; unfold OSDBChunkSize; lia).
  rewrite Hfetch by (apply len_bytes_at; rewrite ?Hbuf; unfold OSDBChunkSize; lia).
  rewrite store_whole by (unfold len in *; lia).
  cbn [app]. now rewrite app_nil_r.
Qed.

Lemma resolve_tail S :
  0 <= S <= max_int64 -> resolve S tail_span = S - OSDBChunkSize.
Proof.
  intros HS. rewrite resolve_negative; cbn [tail_span offset]; unfold OSDBChunkSize;
    [lia|lia| |assumption].
  unfold is_int64, min_int64, max_int64. lia.
Qed.

Lemma range_header_in_range off n :
  0 <= off -> 0 < n -> off + n <= max_int64 ->
  range_header off n
  = "bytes=" +:+ strconv.Itoa off +:+ "-" +:+ strconv.Itoa (off + n - 1).
Proof.
  intros Hoff Hn Hmax. unfold range_header.
  rewrite !wrap64_id; [reflexivity|unfold is_int64, min_int64, max_int64 in *..];
    rewrite ?wrap64_id; unfold is_int64, min_int64, max_int64 in *; lia.
Qed.

(** ** Events of the local reader *)

Lemma reads_keep_files t path :
  Forall (fun e => exists off n, e = EvReadAt path off n) t -> files_open t = 0.
Proof.
  induction 1 as [|e t (off & n & ->) _ IH]; [reflexivity|exact IH].
Qed.

Lemma fresh_fill_local_events path data fileSize chunks r t :
  fresh_fill (readChunk path data) fileSize chunks = (r, t) ->
  Forall (fun e => exists off n, e = EvReadAt path off n) t.
Proof.
  unfold fresh_fill, make. run_unfold.
  destruct (_ <? 0); [intros [= <- <-]; constructor|].
  destruct (fill _ _ _ _ _) as [r' t'] eqn:Hfill. intros [= <- <-].
  eapply fill_events; [|exact Hfill]. intros start sub r0 t0.
  apply readChunk_events.
Qed.

(** ** Where an error of a read comes from *)

Section FillErrors.

Variable fetch : Z -> list byte -> run (list byte * option error).
Variable fileSize : Z.

(** An error of the loop is the error of a fetch. *)
Lemma fill_error chunks : forall buf filled fs buf' e t,
  fill fetch fileSize chunks buf filled = (Returned (fs, buf', Some e), t) ->
  exists start sub sub' t',
    fetch start sub = (Returned (sub', Some e), t').
Proof.
  induction chunks as [|span chunks IH]; intros buf filled fs buf' e t.
  - cbn. intros [=].
  - cbn [fill]. run_unfold.
    destruct (slice buf filled _) as [[sub|msg] t0]; [|intros [=]].
    destruct (fetch _ _) as [[[sub' err]|msg] t1] eqn:Hf; [|intros [=]].
    destruct err as [e'|].
    + intros [= <- <- <- <-]. eauto.
    + destruct (fill _ _ _ _ _) as [[r|msg] t2] eqn:Hr; [|intros [=]].
      intros [= -> <-]. eapply IH, Hr.
Qed.

End FillErrors.

Lemma readChunk_error path data off buf buf' e t :
  readChunk path data off buf = (Returned (buf', Some e), t) -> fetch_error e.
Proof.
  unfold readChunk, File_ReadAt. run_unfold.
  destruct (off <? 0); [now intros [= <- <- <-]|].
  destruct (_ <? len buf); [now intros [= <- <- <-]|].
  destruct (negb _); now intros [= <- <- <-].
Qed.

(** ** When a read panics *)

Section FillBounds.

Variable fetch : Z -> list byte -> run (list byte * option error).
Variable fileSize : Z.

Hypothesis fetch_returns : forall start sub,
  exists sub' e t, fetch start sub = (Returned (sub', e), t).
Hypothesis fetch_len : forall start sub sub' e t,
  fetch start sub = (Returned (sub', e), t) -> length sub' = length sub.

(** With sizes that are not negative and a buffer that holds them all, no
    slice of the loop is out of bounds. *)
Lemma fill_in_bounds chunks : forall buf filled,
  Forall (fun c => 0 <= size c) chunks ->
  0 <= filled -> filled + total_size chunks <= len buf -> len buf <= max_int64 ->
  exists r t, fill fetch fileSize chunks buf filled = (Returned r, t).
Proof.
  induction chunks as [|span chunks IH]; intros buf filled Hsizes H0 Hfit Hmax.
  - cbn. eauto.
  - apply Forall_cons in Hsizes as [Hs Hsizes]. cbn [total_size] in Hfit.
    pose proof (total_size_nonneg _ Hsizes) as Htot.
    cbn [fill].
    rewrite wrap64_id by (unfold is_int64, min_int64, max_int64 in *; lia).
    rewrite slice_in_bounds by lia.
    replace (filled + size span - filled) with (size span) by lia.
    destruct (fetch_returns (resolve fileSize span) (bytes_at buf filled (size span)))
      as (sub' & e & t1 & Hf).
    run_unfold. rewrite Hf. destruct e as [e|]; [eauto|].
    assert (length (store buf filled sub') = length buf) as Hstore.
    { apply length_store; [assumption|].
      apply fetch_len in Hf. unfold len at 1. rewrite Hf.
      fold (len (bytes_at buf filled (size span))).
      rewrite len_bytes_at; lia. }
    destruct (IH (store buf filled sub') (filled + size span)) as (r & t2 & Hr);
      [assumption|lia|unfold len in *; lia..|].
    rewrite Hr. eauto.
Qed.

End FillBounds.

Lemma readChunk_returns path data start sub :
  exists sub' e t, readChunk path data start sub = (Returned (sub', e), t).
Proof.
  destruct (readChunk_run path data start sub) as (b & e & H & _). eauto.
Qed.

Lemma readRemoteChunk_returns W url start sub :
  exists sub' e t, readRemoteChunk W url start sub = (Returned (sub', e), t).
Proof.
  unfold readRemoteChunk. run_unfold. destruct (url_ok W url); cbn; [|eauto].
  destruct (client_Do W "GET" url _) as [resp|]; [|eauto].
  destruct (io_ReadFull (Body resp) sub) as [[n b] [e|]]; [eauto|].
  destruct (negb _); eauto.
Qed.

Lemma fresh_fill_returns fetch fileSize chunks :
  (forall start sub, exists sub' e t, fetch start sub = (Returned (sub', e), t)) ->
  (forall start sub sub' e t,
     fetch start sub = (Returned (sub', e), t) -> length sub' = length sub) ->
  Forall (fun c => 0 <= size c) chunks ->
  total_size chunks <= max_int64 ->
  exists r t, fresh_fill fetch fileSize chunks = (Returned r, t).
Proof.
  intros Hret Hlen Hsizes Hfit. unfold fresh_fill, make.
  rewrite totalBufferNeeded_total_size by assumption.
  pose proof (total_size_nonneg _ Hsizes) as Htot.
  destruct (Z.ltb_spec (total_size chunks) 0); [lia|].
  destruct (fill_in_bounds fetch fileSize Hret Hlen chunks
              (replicate (Z.to_nat (total_size chunks)) x00) 0 Hsizes)
    as (r & t & Hr); [lia|rewrite len_replicate; lia..|].
  run_unfold. rewrite Hr. eauto.
Qed.

(** ** The first span that fails *)

Lemma total_size_app pre post :
  total_size (pre ++ post) = total_size pre + total_size post.
Proof. induction pre as [|c pre IH]; cbn [app total_size]; lia. Qed.

Section FillStops.

Variable fetch : Z -> list byte -> run (list byte * option error).
Variable fileSize : Z.
Variable evs : chunkInfo -> list event.

Hypothesis fetch_len : forall start sub sub' e t,
  fetch start sub = (Returned (sub', e), t) -> length sub' = length sub.

(** The loop fetches the spans in order up to the first one whose fetch
    fails, and none after it. *)
Lemma fill_stops pre c post : forall buf filled,
  Forall (fun x => 0 <= size x /\
                   forall sub, len sub = size x ->
                     exists sub', fetch (resolve fileSize x) sub
                                  = (Returned (sub', None), evs x)) pre ->
  0 <= size c ->
  (forall sub, len sub = size c ->
     exists sub' e, fetch (resolve fileSize c) sub
                    = (Returned (sub', Some e), evs c)) ->
  Forall (fun x => 0 <= size x) post ->
  0 <= filled -> filled + total_size (pre ++ c :: post) <= len buf ->
  len buf <= max_int64 ->
  exists buf' e,
    fill fetch fileSize (pre ++ c :: post) buf filled
    = (Returned (fileSize, buf', Some e), concat (map evs pre) ++ evs c).
Proof.
  intros buf filled Hpre Hc Hfail Hpost. revert buf filled.
  pose proof (total_size_nonneg _ Hpost) as Htpost.
  induction Hpre as [|x pre [Hx Hok] Hpre IH]; intros buf filled H0 Hfit Hmax.
  - cbn [app] in *. cbn [total_size] in Hfit. cbn [fill map concat app].
    rewrite wrap64_id by (unfold is_int64, min_int64, max_int64 in *; lia).
    rewrite slice_in_bounds by lia.
    replace (filled + size c - filled) with (size c) by lia.
    destruct (Hfail (bytes_at buf filled (size c))) as (sub' & e & Hf);
      [apply len_bytes_at; lia|].
    run_unfold. rewrite Hf. cbn. rewrite app_nil_r. eauto.
  - cbn [app] in *. cbn [total_size] in Hfit.
    assert (0 <= total_size (pre ++ c :: post)) as Htot.
    { rewrite total_size_app. cbn [total_size].
      pose proof (total_size_nonneg pre). 
      assert (Forall (fun c => 0 <= size c) pre) as Hp.
      { eapply Forall_impl; [exact Hpre|]. now intros y [? _]. }
      specialize (H Hp). lia. }
    cbn [fill map concat].
    rewrite wrap64_id by (unfold is_int64, min_int64, max_int64 in *; lia).
    rewrite slice_in_bounds by lia.
    replace (filled + size x - filled) with (size x) by lia.
    destruct (Hok (bytes_at buf filled (size x))) as (sub' & Hf);
      [apply len_bytes_at; lia|].
    run_unfold. rewrite Hf.
    assert (length (store buf filled sub') = length buf) as Hstore.
    { apply length_store; [assumption|].
      apply fetch_len in Hf. unfold len at 1. rewrite Hf.
      fold (len (bytes_at buf filled (size x))).
      rewrite len_bytes_at; lia. }
    destruct (IH (store buf filled sub') (filled + size x)) as (buf' & e & Hr);
      [lia|unfold len in *; lia..|].
    rewrite Hr. rewrite <- app_assoc. eauto.
Qed.

End FillStops.

Lemma readChunk_fails path data start sub :
  ~ (len sub = OSDBChunkSize /\ 0 <= start /\ start + OSDBChunkSize <= len data) ->
  exists sub' e,
    readChunk path data start sub
    = (Returned (sub', Some e), [EvReadAt path start (len sub)]).
Proof.
  intros Hnot. destruct (readChunk_run path data start sub) as (b & e & -> & _ & He).
  destruct e as [e|]; [eauto|]. exfalso. apply Hnot.
  destruct (He eq_refl) as (_ & ? & Hfit & Hlen). rewrite Hlen in Hfit. auto.
Qed.

Lemma concat_map_singleton {A B} (f : A -> B) (l : list A) :
  concat (map (fun x => [f x]) l) = map f l.
Proof. induction l as [|x l IH]; cbn; [reflexivity|now rewrite IH]. Qed.

(** ** When every span is read *)

Section FillAll.

Variable fetch : Z -> list byte -> run (list byte * option error).
Variable fileSize : Z.
Variable evs : chunkInfo -> list event.

Hypothesis fetch_len : forall start sub sub' e t,
  fetch start sub = (Returned (sub', e), t) -> length sub' = length sub.

(** When every fetch succeeds, the events of the loop are those of the
    fetches, in the order of the spans. *)
Lemma fill_all chunks : forall buf filled,
  Forall (fun x => 0 <= size x /\
                   forall sub, len sub = size x ->
                     exists sub', fetch (resolve fileSize x) sub
                                  = (Returned (sub', None), evs x)) chunks ->
  0 <= filled -> filled + total_size chunks <= len buf ->
  len buf <= max_int64 ->
  exists buf',
    fill fetch fileSize chunks buf filled
    = (Returned (fileSize, buf', None), concat (map evs chunks)).
Proof.
  intros buf filled Hall. revert buf filled.
  induction Hall as [|x chunks [Hx Hok] Hall IH]; intros buf filled H0 Hfit Hmax.
  - cbn. eauto.
  - cbn [total_size] in Hfit.
    assert (0 <= total_size chunks) as Htot.
    { apply total_size_nonneg. eapply Forall_impl; [exact Hall|]. now intros c [? _]. }
    cbn [fill map concat].
    rewrite wrap64_id by (unfold is_int64, min_int64, max_int64 in *; lia).
    rewrite slice_in_bounds by lia.
    replace (filled + size x - filled) with (size x) by lia.
    destruct (Hok (bytes_at buf filled (size x))) as (sub' & Hf);
      [apply len_bytes_at; lia|].
    run_unfold. rewrite Hf.
    assert (length (store buf filled sub') = length buf) as Hstore.
    { apply length_store; [assumption|].
      apply fetch_len in Hf. unfold len at 1. rewrite Hf.
      fold (len (bytes_at buf filled (size x))).
      rewrite len_bytes_at; lia. }
    destruct (IH (store buf filled sub') (filled + size x)) as (buf' & Hr);
      [lia|unfold len in *; lia..|].
    rewrite Hr. eauto.
Qed.

End FillAll.

(** ** Resources of the remote reader *)

Section FillMeasure.

Variable fetch : Z -> list byte -> run (list byte * option error).
Variable fileSize : Z.
Variable m : list event -> Z.

Hypothesis m_nil : m [] = 0.
Hypothesis m_app : forall t1 t2, m (t1 ++ t2) = m t1 + m t2.
Hypothesis fetch_m : forall start sub r t, fetch start sub = (r, t) -> m t = 0.

(** A count that every fetch leaves at zero is left at zero by the loop. *)
Lemma fill_measure : forall chunks buf filled r t,
  fill fetch fileSize chunks buf filled = (r, t) -> m t = 0.
Proof.
  induction chunks as [|span chunks IH]; intros buf filled r t.
  - cbn. now intros [= <- <-].
  - cbn [fill]. run_unfold.
    destruct (slice buf filled _) as [[sub|msg] t0] eqn:Hs;
      apply slice_silent in Hs as ->; [|now intros [= <- <-]].
    destruct (fetch _ _) as [[[sub' err]|msg] t1] eqn:Hf;
      [|intros [= <- <-]; cbn; eauto].
    apply fetch_m in Hf. destruct err as [e|].
    + intros [= <- <-]. cbn. now rewrite app_nil_r.
    + destruct (fill _ _ _ _ _) as [r2 t2] eqn:Hr. apply IH in Hr.
      intros [= <- <-]. cbn. rewrite m_app. lia.
Qed.

Lemma fresh_fill_measure chunks r t :
  fresh_fill fetch fileSize chunks = (r, t) -> m t = 0.
Proof.
  unfold fresh_fill, make. run_unfold.
  destruct (_ <? 0); [now intros [= <- <-]|].
  destruct (fill _ _ _ _ _) as [r' t'] eqn:Hfill. intros [= <- <-].
  cbn. eapply fill_measure, Hfill.
Qed.

End FillMeasure.

Lemma fresh_fill_events fetch fileSize (P : event -> Prop) chunks r t :
  (forall start sub r t, fetch start sub = (r, t) -> Forall P t) ->
  fresh_fill fetch fileSize chunks = (r, t) -> Forall P t.
Proof.
  intros Hfetch. unfold fresh_fill, make. run_unfold.
  destruct (_ <? 0); [intros [= <- <-]; constructor|].
  destruct (fill _ _ _ _ _) as [r' t'] eqn:Hfill. intros [= <- <-].
  cbn. eapply fill_events; [exact Hfetch|exact Hfill].
Qed.

(** Every run of [readRemoteChunk] closes the body it opened, and touches
    no file. *)
Lemma readRemoteChunk_events W url start sub r t :
  readRemoteChunk W url start sub = (r, t) ->
  bodies_open t = 0 /\ Forall (fun e => is_file e = false) t.
Proof.
  unfold readRemoteChunk. run_unfold. destruct (url_ok W url); cbn;
    [|intros [= <- <-]; split; [reflexivity|constructor]].
  destruct (client_Do W "GET" url _) as [resp|];
    [|intros [= <- <-]; split; [reflexivity|repeat constructor]].
  destruct (io_ReadFull (Body resp) sub) as [[n b] [e|]];
    [|destruct (negb _)]; cbn; intros [= <- <-];
    (split; [reflexivity|repeat constructor]).
Qed.

(** What a remote read is made of: the probe, and when the probe succeeds
    and the source is large enough, the allocation and the loop. *)
Lemma readRemoteChunks_events W url minimumRequiredSize chunks :
  events_of (readRemoteChunks W url minimumRequiredSize chunks)
  = (if head_is_answered W url
     then [EvDo "HEAD" url None true]
     else if url_ok W url then [EvDo "HEAD" url None false] else [])
    ++ [EvCancel]
  \/ exists S r t,
       fresh_fill (readRemoteChunk W url) S chunks = (r, t) /\
       head_is_answered W url = true /\
       events_of (readRemoteChunks W url minimumRequiredSize chunks)
       = EvDo "HEAD" url None true :: t ++ [EvCancel].
Proof.
  unfold readRemoteChunks, head_is_answered, first_value, index0, defer. run_unfold.
  destruct (url_ok W url); [|now left].
  destruct (client_Do W "HEAD" url None) as [res|]; [|now left].
  destruct (Header res !! "Accept-Ranges") as [[|v ar]|]; [now left| |now left].
  cbn. destruct (String.eqb v "bytes"); [|now left].
  destruct (Header res !! "Content-Length") as [[|cl cls]|]; [now left| |now left].
  cbn. destruct (strconv.ParseInt cl) as [S [e|]]; [now left|].
  destruct (S <? minimumRequiredSize); [now left|].
  right. unfold fresh_fill. run_unfold.
  destruct (make _) as [[buf|msg] t0].
  - destruct (fill _ _ _ _ _) as [r t1] eqn:Hfill. cbn.
    exists S, r, (t0 ++ t1). now rewrite Hfill.
  - cbn. now exists S, (Panicked msg), t0.
Qed.

(** The remote reader touches no file. *)
Lemma remote_reader_files W url minimumRequiredSize chunks :
  Forall (fun e => is_file e = false)
         (events_of (readRemoteChunks W url minimumRequiredSize chunks)).
Proof.
  destruct (readRemoteChunks_events W url minimumRequiredSize chunks)
    as [->|(S & r & t & Hfill & _ & ->)].
  - destruct (head_is_answered W url); [|destruct (url_ok W url)];
      repeat constructor.
  - constructor; [reflexivity|]. apply Forall_app. split; [|repeat constructor].
    eapply fresh_fill_events; [|exact Hfill].
    intros start sub r0 t0 H. now apply readRemoteChunk_events in H.
Qed.

Lemma readChunk_no_http path data start sub r t :
  readChunk path data start sub = (r, t) -> Forall (fun e => is_http e = false) t.
Proof.
  destruct (readChunk_run path data start sub) as (b & e & -> & _).
  intros [= <- <-]. now repeat constructor.
Qed.

(** ** What the hash cannot tell apart *)

Lemma le_words_app n : forall a b,
  length a = (8 * n)%nat ->
  Spec.le_words (a ++ b) = Spec.le_words a ++ Spec.le_words b.
Proof.
  induction n as [|n IH]; intros a b Hlen.
  - destruct a; [reflexivity|discriminate].
  - do 8 (destruct a as [|? a]; [cbn in Hlen; lia|]).
    cbn [app Spec.le_words]. rewrite IH; [reflexivity|].
    cbn [length] in Hlen. lia.
Qed.

Lemma foldr_add_app (xs ys : list Z) :
  foldr Z.add 0 (xs ++ ys) = foldr Z.add 0 xs + foldr Z.add 0 ys.
Proof. induction xs as [|x xs IH]; cbn [app foldr]; lia. Qed.

(** The words of two chunks are summed, so the order of the chunks is
    lost. *)
Lemma computeIdentityHash_swap a b S :
  len a = OSDBChunkSize -> len b = OSDBChunkSize ->
  Spec.computeIdentityHash (a ++ b) S = Spec.computeIdentityHash (b ++ a) S.
Proof.
  intros Ha Hb. unfold Spec.computeIdentityHash, Spec.sum64.
  rewrite (le_words_app (Z.to_nat 8192) a b), (le_words_app (Z.to_nat 8192) b a), !foldr_add_app;
    [|unfold len, OSDBChunkSize in *; lia..].
  now rewrite (Z.add_comm (foldr Z.add 0 (Spec.le_words a))).
Qed.

Lemma bytes_at_app_l a b : bytes_at (a ++ b) 0 (len a) = a.
Proof.
  unfold bytes_at, len. change (Z.to_nat 0) with 0%nat.
  now rewrite drop_0, Nat2Z.id, take_app_length.
Qed.

Lemma bytes_at_app_r a b : bytes_at (a ++ b) (len a) (len b) = b.
Proof.
  unfold bytes_at, len. rewrite !Nat2Z.id, drop_app_length.
  apply firstn_all.
Qed.

(** ** What the hash folder returns *)

(** What [OSDBHashFile] returns: an error beside an empty hash, or a hash
    of sixteen lowercase hexadecimal digits and no error. *)
Lemma OSDBHashFile_returns W filePath h err :
  result_of (OSDBHashFile W filePath) = Returned (h, err) ->
  (exists e, err = Some e /\ h = ""%string) \/
  (err = None /\ String.length h = 16%nat /\ string_forall lower_hex h = true).
Proof.
  destruct (readChunks W filePath OSDBChunkSize spans)
    as [[[[fileSize buf] [e|]]|msg] t] eqn:Hrun.
  - rewrite (OSDBHashFile_failure _ _ _ _ _ _ Hrun). intros [= <- <-]. eauto.
  - rewrite (OSDBHashFile_success _ _ _ _ _ Hrun). intros [= <- <-]. right.
    split; [reflexivity|apply computeIdentityHash_shape].
  - unfold OSDBHashFile. run_unfold. rewrite Hrun. intros [=].
Qed.

(** * The claims *)

(** ** Range support (C8, C10) and the declared length (C6) *)

(** C8: when the HEAD response of a remote source has no
    [Accept-Ranges: bytes] header (no [Accept-Ranges] header at all, or none
    of its values is ["bytes"]), [readRemoteChunks] fails with
    [RangeUnsupportedError] and has sent no GET. *)
Theorem C8_range_unsupported W url minimumRequiredSize chunks res :
  url_ok W url = true ->
  client_Do W "HEAD" url None = Some res ->
  well_formed_header (Header res) ->
  (forall vs, Header res !! "Accept-Ranges" = Some vs -> ~ In "bytes"%string vs) ->
  result_of (readRemoteChunks W url minimumRequiredSize chunks)
  = Returned (0, [], Some RangeUnsupportedError) /\
  Forall (fun e => is_fetch e = false)
         (events_of (readRemoteChunks W url minimumRequiredSize chunks)).
Proof.
  intros Hurl Hhead Hwf Hnone.
  rewrite (readRemoteChunks_rejects W url minimumRequiredSize chunks res Hurl Hhead).
  - split; [reflexivity|]. repeat constructor.
  - destruct (Header res !! "Accept-Ranges") as [[|v vs]|] eqn:Hranges.
    + now apply Hwf in Hranges.
    + right. exists v, vs. split; [reflexivity|].
      intros ->. apply (Hnone _ eq_refl). now left.
    + now left.
Qed.

Lemma C8_range_unsupported_witness :
  result_of (readRemoteChunks
               (Examples.server {[ "Content-Length"%string := ["200000"%string] ]}
                                (Examples.zero_bytes 200000))
               "http://host/movie.mkv" OSDBChunkSize spans)
  = Returned (0, [], Some RangeUnsupportedError) /\
  Forall (fun e => is_fetch e = false)
         (events_of (readRemoteChunks
               (Examples.server {[ "Content-Length"%string := ["200000"%string] ]}
                                (Examples.zero_bytes 200000))
               "http://host/movie.mkv" OSDBChunkSize spans)).
Proof.
  apply (C8_range_unsupported _ _ _ _
           {| Header := {[ "Content-Length"%string := ["200000"%string] ]};
              Body := [] |}).
  - reflexivity.
  - reflexivity.
  - intros k vs Hk. cbn in Hk. apply lookup_singleton_Some in Hk as [_ <-].
    discriminate.
  - intros vs Hk. cbn in Hk. apply lookup_singleton_Some in Hk as [Hk _].
    discriminate.
Defined.

(** C10: when the HEAD response carries an [Accept-Ranges] header whose
    first value is not exactly ["bytes"], [readRemoteChunks] fails with
    [RangeUnsupportedError] as well, whatever the values after the first. *)
Theorem C10_first_value_not_bytes W url minimumRequiredSize chunks res v vs :
  url_ok W url = true ->
  client_Do W "HEAD" url None = Some res ->
  Header res !! "Accept-Ranges" = Some (v :: vs) ->
  v <> "bytes"%string ->
  result_of (readRemoteChunks W url minimumRequiredSize chunks)
  = Returned (0, [], Some RangeUnsupportedError) /\
  Forall (fun e => is_fetch e = false)
         (events_of (readRemoteChunks W url minimumRequiredSize chunks)).
Proof.
  intros Hurl Hhead Hranges Hne.
  rewrite (readRemoteChunks_rejects W url minimumRequiredSize chunks res Hurl Hhead).
  - split; [reflexivity|]. repeat constructor.
  - right. eauto.
Qed.

Lemma C10_first_value_not_bytes_witness :
  result_of (readRemoteChunks
               (Examples.server {[ "Accept-Ranges"%string := ["none"; "bytes"]%string;
                                   "Content-Length"%string := ["200000"%string] ]}
                                (Examples.zero_bytes 200000))
               "http://host/movie.mkv" OSDBChunkSize spans)
  = Returned (0, [], Some RangeUnsupportedError) /\
  Forall (fun e => is_fetch e = false)
         (events_of (readRemoteChunks
               (Examples.server {[ "Accept-Ranges"%string := ["none"; "bytes"]%string;
                                   "Content-Length"%string := ["200000"%string] ]}
                                (Examples.zero_bytes 200000))
               "http://host/movie.mkv" OSDBChunkSize spans)).
Proof.
  apply (C10_first_value_not_bytes _ _ _ _
           {| Header := {[ "Accept-Ranges"%string := ["none"; "bytes"]%string;
                           "Content-Length"%string := ["200000"%string] ]};
              Body := [] |} "none"%string ["bytes"%string]).
  - reflexivity.
  - reflexivity.
  - vm_compute. reflexivity.
  - discriminate.
Defined.

(** C6 (what the code does): with byte ranges accepted and no
    [Content-Length] header in the HEAD response, [readRemoteChunks] indexes
    an empty slice and panics; no error value reaches the caller. *)
Theorem C6_missing_content_length_panics W url minimumRequiredSize chunks res ar :
  url_ok W url = true ->
  client_Do W "HEAD" url None = Some res ->
  Header res !! "Accept-Ranges" = Some ("bytes"%string :: ar) ->
  Header res !! "Content-Length" = None ->
  result_of (readRemoteChunks W url minimumRequiredSize chunks)
  = Panicked "index out of range [0] with length 0".
Proof.
  intros Hurl Hhead Hranges Hlength.
  now rewrite (readRemoteChunks_no_length W url minimumRequiredSize chunks res
                 Hurl Hhead ar Hranges Hlength).
Qed.

Lemma C6_missing_content_length_panics_witness :
  result_of (readRemoteChunks
               (Examples.server {[ "Accept-Ranges"%string := ["bytes"%string] ]}
                                (Examples.zero_bytes 200000))
               "http://host/movie.mkv" OSDBChunkSize spans)
  = Panicked "index out of range [0] with length 0".
Proof.
  apply (C6_missing_content_length_panics _ _ _ _
           {| Header := {[ "Accept-Ranges"%string := ["bytes"%string] ]};
              Body := [] |} []).
  - reflexivity.
  - reflexivity.
  - vm_compute. reflexivity.
  - vm_compute. reflexivity.
Defined.

(** ** Too small, large enough (C1, C2) *)

(** C1, as stated, fails: a local file of 131071 zero bytes is below
    131072 bytes, and [OSDBHashFile] hashes it. *)
Lemma C1_counterexample :
  source_size (Examples.local_world "movie.mkv" (Examples.zero_bytes 131071))
              "movie.mkv" 131071 /\
  131071 < 131072 /\
  result_of (OSDBHashFile (Examples.local_world "movie.mkv" (Examples.zero_bytes 131071))
                          "movie.mkv")
  = Returned ("000000000001ffff"%string, None).
Proof.
  split; [|split; [lia|]].
  - exists (Examples.zero_bytes 131071). repeat split; vm_compute; congruence.
  - vm_compute. reflexivity.
Qed.

(** C1, amended: for every source whose total size [S] is less than 65536
    bytes ([OSDBChunkSize], the minimum that [OSDBHashFile] asks for),
    [OSDBHashFile] fails with [SourceTooSmallError], and has read no byte of
    the source. *)
Theorem C1_below_one_chunk W filePath S :
  source_size W filePath S ->
  S < OSDBChunkSize ->
  result_of (OSDBHashFile W filePath)
  = Returned (""%string, Some SourceTooSmallError) /\
  Forall (fun e => is_fetch e = false) (events_of (OSDBHashFile W filePath)).
Proof.
  intros Hsize Hsmall.
  rewrite (OSDBHashFile_failure W filePath S [] SourceTooSmallError
             (if is_remote filePath
              then [EvDo "HEAD" filePath None true; EvCancel]
              else [EvOpen filePath])).
  - split; [reflexivity|]. destruct (is_remote filePath); repeat constructor.
  - apply readChunks_too_small; [assumption|].
    unfold effective_minimum. now destruct (is_remote filePath).
Qed.

(** A local file of exactly 65535 bytes fails with [SourceTooSmallError]. *)
Lemma C1_below_one_chunk_witness :
  result_of (OSDBHashFile (Examples.local_world "movie.mkv" (Examples.zero_bytes 65535))
                          "movie.mkv")
  = Returned (""%string, Some SourceTooSmallError) /\
  Forall (fun e => is_fetch e = false)
         (events_of (OSDBHashFile
                       (Examples.local_world "movie.mkv" (Examples.zero_bytes 65535))
                       "movie.mkv")).
Proof.
  apply (C1_below_one_chunk _ _ 65535).
  - exists (Examples.zero_bytes 65535). repeat split; vm_compute; congruence.
  - reflexivity.
Defined.

(** C2: for every source whose total size [S] is at least 131072 bytes and
    whose reads succeed, [OSDBHashFile] returns no error and a string of
    exactly 16 characters, each a lowercase hexadecimal digit. *)
Theorem C2_sixteen_hex_digits W filePath S :
  source_size W filePath S ->
  131072 <= S ->
  reads_succeed W filePath S ->
  exists hash,
    result_of (OSDBHashFile W filePath) = Returned (hash, None) /\
    String.length hash = 16%nat /\
    string_forall lower_hex hash = true.
Proof.
  intros Hsize Hlarge Hreads.
  destruct (OSDBHashFile_ok W filePath S Hsize) as (buf & t & _ & ->);
    [unfold OSDBChunkSize; lia|assumption|].
  eexists. split; [reflexivity|]. apply computeIdentityHash_shape.
Qed.

Lemma C2_sixteen_hex_digits_witness :
  exists hash,
    result_of (OSDBHashFile (Examples.range_server (Examples.zero_bytes 200000))
                            "https://host/movie.mkv")
    = Returned (hash, None) /\
    String.length hash = 16%nat /\
    string_forall lower_hex hash = true.
Proof.
  apply (C2_sixteen_hex_digits _ _ 200000).
  - split; [reflexivity|].
    eexists _, [], _, []. repeat split; vm_compute; reflexivity.
  - lia.
  - intros _ start [->| ->]; eexists; (split; [reflexivity|]); vm_compute;
      discriminate.
Defined.

(** ** Folding (C3) *)

(** C3: the buffer that [OSDBHashFile] fetches is a sequence of eight-byte
    little-endian words (16384 of them); with [X] their sum modulo [2^64]
    and [fileSize] the total size of the source, [OSDBHashFile] returns the
    sixteen lowercase hexadecimal digits of [(X + fileSize) mod 2^64]. *)
Theorem C3_folding W filePath fileSize buf t :
  readChunks W filePath OSDBChunkSize spans = (Returned (fileSize, buf, None), t) ->
  len buf = 8 * len (Spec.le_words buf) /\
  len (Spec.le_words buf) = 16384 /\
  result_of (OSDBHashFile W filePath)
  = Returned (Spec.format_hex16
                ((Spec.sum64 (Spec.le_words buf) + fileSize) mod 2 ^ 64), None).
Proof.
  intros Hrun.
  assert (length buf = (8 * Z.to_nat 16384)%nat) as Hlen.
  { pose proof (readChunks_success_length _ _ _ _ _ _ _ spans_sizes
                  ltac:(rewrite spans_total; unfold OSDBChunkSize, max_int64; lia) Hrun)
      as Hlen.
    rewrite spans_total in Hlen. unfold len, OSDBChunkSize in Hlen. lia. }
  unfold len at 1 2 3. rewrite (le_words_length _ buf Hlen), Hlen.
  split; [lia|]. split; [lia|].
  now rewrite (OSDBHashFile_success _ _ _ _ _ Hrun).
Qed.

(** An all-zero local file of exactly 131072 bytes hashes to
    ["0000000000020000"]. *)
Lemma C3_folding_witness :
  result_of (OSDBHashFile (Examples.local_world "movie.mkv" (Examples.zero_bytes 131072))
                          "movie.mkv")
  = Returned ("0000000000020000"%string, None).
Proof.
  destruct (readChunks_ok (Examples.local_world "movie.mkv" (Examples.zero_bytes 131072))
              "movie.mkv" OSDBChunkSize spans 131072) as (t & Hrun).
  - exists (Examples.zero_bytes 131072). repeat split; vm_compute; congruence.
  - vm_compute. congruence.
  - vm_compute. congruence.
  - apply spans_readable.
    + exists (Examples.zero_bytes 131072). repeat split; vm_compute; congruence.
    + vm_compute. congruence.
    + intros [=].
  - destruct (C3_folding _ _ _ _ _ Hrun) as (_ & _ & ->).
    vm_compute. reflexivity.
Defined.

(** ** Negative offsets (C5) *)

(** C5: in a read that succeeds, the bytes fetched for a span with a
    negative offset [o] are those of the source at the offset [S + o], [S]
    being the total size (and those at [o] when [o] is not negative), one
    span after the other; and the span [{-65536, 65536}] on a source of size
    [S >= 65536] is read, by one positioned read at [S - 65536] or one GET
    with [Range: bytes=<S-65536>-<S-1>], and yields exactly the bytes
    [[S-65536, S)]. *)
Theorem C5_negative_offsets W filePath minimumRequiredSize S :
  source_size W filePath S ->
  (forall chunks fs buf t,
     Forall (fun c => 0 <= size c /\ is_int64 (offset c)) chunks ->
     total_size chunks <= max_int64 ->
     readChunks W filePath minimumRequiredSize chunks
     = (Returned (fs, buf, None), t) ->
     buf = concat (map (fun c =>
                          source_bytes W filePath
                            (if offset c <? 0 then S + offset c else offset c)
                            (size c))
                       chunks)) /\
  (is_remote filePath = false ->
   OSDBChunkSize <= S -> minimumRequiredSize <= S ->
   readChunks W filePath minimumRequiredSize [tail_span]
   = (Returned (S, source_bytes W filePath (S - OSDBChunkSize) OSDBChunkSize, None),
      [EvOpen filePath; EvReadAt filePath (S - OSDBChunkSize) OSDBChunkSize])) /\
  (is_remote filePath = true ->
   OSDBChunkSize <= S ->
   forall resp,
     client_Do W "GET" filePath
       (Some ("bytes=" +:+ strconv.Itoa (S - OSDBChunkSize) +:+ "-"
                       +:+ strconv.Itoa (S - 1))) = Some resp ->
     OSDBChunkSize <= len (Body resp) ->
     readChunks W filePath minimumRequiredSize [tail_span]
     = (Returned (S, source_bytes W filePath (S - OSDBChunkSize) OSDBChunkSize, None),
        [EvDo "HEAD" filePath None true;
         EvDo "GET" filePath
           (Some ("bytes=" +:+ strconv.Itoa (S - OSDBChunkSize) +:+ "-"
                           +:+ strconv.Itoa (S - 1))) true;
         EvBodyClose "GET" filePath;
         EvCancel])).
Proof.
  intros Hsize. split; [|split].
  - intros chunks fs buf t Hchunks Hfit Hrun.
    assert (Forall (fun c => 0 <= size c) chunks) as Hsizes.
    { eapply Forall_impl; [exact Hchunks|]. now intros c [? _]. }
    destruct (readChunks_fetched W filePath minimumRequiredSize chunks S
                Hsize Hfit fs buf t Hsizes Hrun) as (_ & HS & ->).
    f_equal. apply map_ext_Forall.
    eapply Forall_impl; [exact Hchunks|]. intros c [_ Hoff]. cbn beta.
    now rewrite resolve_cases.
  - intros Hlocal Hchunk Hmin. unfold source_size, source_bytes in *.
    rewrite Hlocal in *. destruct Hsize as (data & Hfile & -> & Hmax).
    rewrite Hfile. cbn [file_data].
    rewrite (local_readChunks_fill W _ _ _ data) by assumption.
    pose proof (len_nonneg data).
    assert (fresh_fill (readChunk filePath data) (len data) [tail_span]
            = (Returned (len data,
                         bytes_at data (len data - OSDBChunkSize) OSDBChunkSize,
                         None),
               [EvReadAt filePath (len data - OSDBChunkSize) OSDBChunkSize]))
      as Hfill.
    { apply fresh_fill_single.
      - reflexivity.
      - intros sub Hsub. rewrite resolve_tail by lia.
        apply readChunk_ok; unfold OSDBChunkSize in *; lia.
      - apply len_bytes_at; unfold OSDBChunkSize in *; lia. }
    now rewrite Hfill.
  - intros Hremote Hchunk resp Hget Hbody. unfold source_size, source_bytes in *.
    rewrite Hremote in *.
    pose proof (remote_size_int64 _ _ _ Hsize) as HS.
    unfold is_int64, min_int64, max_int64 in HS.
    assert (range_header (S - OSDBChunkSize) OSDBChunkSize
            = "bytes=" +:+ strconv.Itoa (S - OSDBChunkSize) +:+ "-"
                       +:+ strconv.Itoa (S - 1)) as Hrange.
    { rewrite range_header_in_range;
        unfold OSDBChunkSize, max_int64 in *; [|lia..].
      do 4 f_equal. lia. }
    rewrite <- Hrange in *.
    rewrite (remote_readChunks_fill W _ _ _ S) by assumption.
    assert (fresh_fill (readRemoteChunk W filePath) S [tail_span]
            = (Returned (S,
                         remote_bytes W filePath (S - OSDBChunkSize) OSDBChunkSize,
                         None),
               [EvDo "GET" filePath
                  (Some (range_header (S - OSDBChunkSize) OSDBChunkSize)) true;
                EvBodyClose "GET" filePath]))
      as Hfill.
    { apply fresh_fill_single.
      - reflexivity.
      - intros sub Hsub.
        rewrite resolve_tail by (unfold OSDBChunkSize, max_int64 in *; lia).
        unfold remote_bytes. rewrite Hget.
        destruct Hsize as (Hurl & _).
        rewrite (readRemoteChunk_ok W _ _ _ resp Hurl); rewrite Hsub;
          try assumption.
        unfold len, OSDBChunkSize in *. do 4 f_equal. lia.
      - unfold remote_bytes. rewrite Hget. unfold len in *.
        rewrite length_take. unfold OSDBChunkSize in *. lia. }
    now rewrite Hfill.
Qed.

Lemma C5_negative_offsets_witness :
  readChunks (Examples.local_world "movie.mkv" (Examples.zero_bytes 200000))
             "movie.mkv" OSDBChunkSize [tail_span]
  = (Returned (200000,
               source_bytes (Examples.local_world "movie.mkv" (Examples.zero_bytes 200000))
                            "movie.mkv" (200000 - OSDBChunkSize) OSDBChunkSize,
               None),
     [EvOpen "movie.mkv";
      EvReadAt "movie.mkv" (200000 - OSDBChunkSize) OSDBChunkSize]).
Proof.
  apply (C5_negative_offsets _ "movie.mkv" OSDBChunkSize 200000).
  - exists (Examples.zero_bytes 200000). repeat split; vm_compute; congruence.
  - reflexivity.
  - vm_compute. congruence.
  - vm_compute. congruence.
Defined.

(** ** The minimum of the remote reader (C4) *)

(** C4 (what the code does): for a remote source [readChunks] validates
    against [OSDBChunkSize], not against its [minimumRequiredSize].  A source
    of 70000 bytes passes although 131072 are required, and is read; a source
    of 100 bytes is rejected with [SourceTooSmallError] although 0 bytes are
    required. *)
Theorem C4_remote_minimum_ignored :
  (exists buf t,
     readChunks (Examples.range_server (Examples.zero_bytes 70000))
                "http://host/movie.mkv" 131072
                [ {| offset := 0; size := OSDBChunkSize |} ]
     = (Returned (70000, buf, None), t) /\ len buf = OSDBChunkSize) /\
  result_of (readChunks (Examples.range_server (Examples.zero_bytes 100))
                        "http://host/movie.mkv" 0 [])
  = Returned (100, [], Some SourceTooSmallError).
Proof.
  split; [|vm_compute; reflexivity].
  destruct (readChunks_ok (Examples.range_server (Examples.zero_bytes 70000))
              "http://host/movie.mkv" 131072
              [ {| offset := 0; size := OSDBChunkSize |} ] 70000) as (t & Hrun).
  - split; [reflexivity|].
    eexists _, [], _, []. repeat split; vm_compute; reflexivity.
  - vm_compute. congruence.
  - vm_compute. congruence.
  - constructor; [|constructor]. split; [reflexivity|].
    change (is_remote "http://host/movie.mkv") with true. cbv iota.
    eexists. split; [reflexivity|]. vm_compute. congruence.
  - eexists _, t. split; [exact Hrun|].
    change OSDBChunkSize
      with (total_size [ {| offset := 0; size := OSDBChunkSize |} ]) at 2.
    eapply readChunks_success_length; [| |exact Hrun].
    + constructor; [discriminate|constructor].
    + vm_compute. congruence.
Qed.

(** ** The byte count of the local fetch (C7) *)

(** C7 (what the code does): when the positioned read returns exactly the
    bytes of a span whose size is not 65536, [readChunk] fails all the same,
    with the "invalid read" error: it compares the count with
    [OSDBChunkSize], not with the size of the span. *)
Theorem C7_full_read_rejected path data off buf :
  0 <= off -> off + len buf <= len data ->
  len buf <> OSDBChunkSize ->
  File_ReadAt data buf off = (len buf, bytes_at data off (len buf), None) /\
  readChunk path data off buf
  = (Returned (bytes_at data off (len buf), Some (invalid_read (len buf))),
     [EvReadAt path off (len buf)]).
Proof.
  intros Hoff Hfit Hne.
  pose proof (File_ReadAt_full data buf off Hoff Hfit) as Hread.
  split; [exact Hread|].
  unfold readChunk. run_unfold. rewrite Hread.
  destruct (Z.eqb_spec (len buf) OSDBChunkSize); [contradiction|reflexivity].
Qed.

Lemma C7_full_read_rejected_witness :
  File_ReadAt (Examples.zero_bytes 200) (Examples.zero_bytes 100) 0
  = (len (Examples.zero_bytes 100),
     bytes_at (Examples.zero_bytes 200) 0 (len (Examples.zero_bytes 100)), None) /\
  readChunk "movie.mkv" (Examples.zero_bytes 200) 0 (Examples.zero_bytes 100)
  = (Returned (bytes_at (Examples.zero_bytes 200) 0 (len (Examples.zero_bytes 100)),
               Some (invalid_read (len (Examples.zero_bytes 100)))),
     [EvReadAt "movie.mkv" 0 (len (Examples.zero_bytes 100))]).
Proof.
  apply C7_full_read_rejected.
  - lia.
  - vm_compute. congruence.
  - vm_compute. congruence.
Defined.

(** ** Resources (C9) *)

(** C9 (what the code does): whenever [os.Open] succeeds, [readChunks]
    returns with the file handle still open, on every exit path: the file is
    never closed. *)
Theorem C9_file_left_open W filePath minimumRequiredSize chunks file :
  is_remote filePath = false ->
  fs W filePath = Some file ->
  files_open (events_of (readChunks W filePath minimumRequiredSize chunks)) = 1 /\
  ~ all_released (events_of (readChunks W filePath minimumRequiredSize chunks)).
Proof.
  intros Hlocal Hfile.
  enough (files_open (events_of (readChunks W filePath minimumRequiredSize chunks))
          = 1) as Hopen.
  { split; [exact Hopen|]. intros [Hfiles _]. rewrite Hopen in Hfiles. discriminate. }
  destruct file as [data|data].
  - rewrite (local_readChunks W _ _ _ data) by assumption.
    destruct (Z.ltb_spec (len data) minimumRequiredSize); [reflexivity|].
    change (buf ← make (totalBufferNeeded chunks);
            fill (readChunk filePath data) (len data) chunks buf 0)
      with (fresh_fill (readChunk filePath data) (len data) chunks).
    destruct (fresh_fill _ _ _) as [r t] eqn:Hfill.
    apply fresh_fill_local_events, reads_keep_files in Hfill.
    cbn [events_of snd files_open]. lia.
  - unfold readChunks. fold (is_remote filePath). rewrite Hlocal, Hfile.
    reflexivity.
Qed.

Lemma C9_file_left_open_witness :
  files_open (events_of (readChunks
                           (Examples.local_world "movie.mkv" (Examples.zero_bytes 131072))
                           "movie.mkv" OSDBChunkSize spans)) = 1 /\
  ~ all_released (events_of (readChunks
                           (Examples.local_world "movie.mkv" (Examples.zero_bytes 131072))
                           "movie.mkv" OSDBChunkSize spans)).
Proof.
  apply (C9_file_left_open _ _ _ _ (Regular (Examples.zero_bytes 131072))); reflexivity.
Defined.

(** The bodies of the GET responses are closed; that of the HEAD response is
    not. *)
Lemma remote_bodies :
  events_of (OSDBHashFile (Examples.range_server (Examples.zero_bytes 200000))
                          "https://host/movie.mkv")
  = [EvDo "HEAD" "https://host/movie.mkv" None true;
     EvDo "GET" "https://host/movie.mkv" (Some "bytes=0-65535"%string) true;
     EvBodyClose "GET" "https://host/movie.mkv";
     EvDo "GET" "https://host/movie.mkv" (Some "bytes=134464-199999"%string) true;
     EvBodyClose "GET" "https://host/movie.mkv";
     EvCancel] /\
  bodies_open (events_of (OSDBHashFile (Examples.range_server (Examples.zero_bytes 200000))
                                       "https://host/movie.mkv")) = 1.
Proof. split; vm_compute; reflexivity. Qed.

(** * Further properties *)

(** The hash of a source of at least one chunk whose reads succeed is that
    of its first and its last 65536 bytes (which overlap below 131072 bytes)
    and its size. *)
Theorem hash_of_head_and_tail W filePath S :
  source_size W filePath S ->
  OSDBChunkSize <= S ->
  reads_succeed W filePath S ->
  result_of (OSDBHashFile W filePath)
  = Returned (Spec.computeIdentityHash
                (source_bytes W filePath 0 OSDBChunkSize
                 ++ source_bytes W filePath (S - OSDBChunkSize) OSDBChunkSize) S,
              None).
Proof.
  intros Hsize Hmin Hreads.
  destruct (readChunks_ok W filePath OSDBChunkSize spans S Hsize) as (t & Hrun).
  - rewrite spans_total. unfold OSDBChunkSize, max_int64. lia.
  - unfold effective_minimum. now destruct (is_remote filePath).
  - now apply spans_readable.
  - rewrite (OSDBHashFile_success _ _ _ _ _ Hrun). cbn [result_of fst].
    unfold spans. cbn [map concat size].
    change {| offset := - OSDBChunkSize; size := OSDBChunkSize |} with tail_span.
    rewrite resolve_tail, app_nil_r; [reflexivity|].
    unfold source_size in Hsize. destruct (is_remote filePath).
    + apply remote_size_int64 in Hsize. unfold is_int64, OSDBChunkSize in *. lia.
    + destruct Hsize as (data & _ & -> & ?). pose proof (len_nonneg data). lia.
Qed.

Lemma hash_of_head_and_tail_witness :
  result_of (OSDBHashFile (Examples.local_world "movie.mkv" (Examples.zero_bytes 100000))
                          "movie.mkv")
  = Returned (Spec.computeIdentityHash
                (source_bytes (Examples.local_world "movie.mkv" (Examples.zero_bytes 100000))
                              "movie.mkv" 0 OSDBChunkSize
                 ++ source_bytes (Examples.local_world "movie.mkv"
                                                       (Examples.zero_bytes 100000))
                                 "movie.mkv" (100000 - OSDBChunkSize) OSDBChunkSize)
                100000,
              None).
Proof.
  apply hash_of_head_and_tail.
  - exists (Examples.zero_bytes 100000). repeat split; vm_compute; congruence.
  - vm_compute. congruence.
  - intros [=].
Defined.

(** On the local path the given [minimumRequiredSize] decides: a smaller
    file fails with [SourceTooSmallError], and no other file does. *)
Theorem local_minimum_honoured W filePath minimumRequiredSize chunks S :
  is_remote filePath = false ->
  source_size W filePath S ->
  (S < minimumRequiredSize ->
   result_of (readChunks W filePath minimumRequiredSize chunks)
   = Returned (S, [], Some SourceTooSmallError)) /\
  (minimumRequiredSize <= S ->
   forall fs buf e,
     result_of (readChunks W filePath minimumRequiredSize chunks)
     = Returned (fs, buf, Some e) ->
     e <> SourceTooSmallError).
Proof.
  intros Hlocal Hsize. split.
  - intros Hsmall. rewrite (readChunks_too_small W _ _ _ S Hsize); [reflexivity|].
    unfold effective_minimum. now rewrite Hlocal.
  - intros Hmin fs buf e. unfold source_size in Hsize. rewrite Hlocal in Hsize.
    destruct Hsize as (data & Hfile & -> & _).
    rewrite (local_readChunks_fill W _ _ _ data) by assumption.
    unfold fresh_fill, make. run_unfold.
    destruct (_ <? 0); [intros [=]|].
    destruct (fill _ _ _ _ _) as [[r|msg] t] eqn:Hfill; [|intros [=]].
    cbn. intros [= ->].
    apply fill_error in Hfill as (start & sub & sub' & t' & Hfetch).
    apply readChunk_error in Hfetch. intros ->. exact Hfetch.
Qed.

Lemma local_minimum_honoured_witness :
  result_of (readChunks (Examples.local_world "movie.mkv" (Examples.zero_bytes 70000))
                        "movie.mkv" 131072 spans)
  = Returned (70000, [], Some SourceTooSmallError).
Proof.
  apply (local_minimum_honoured _ "movie.mkv" 131072 spans 70000).
  - reflexivity.
  - exists (Examples.zero_bytes 70000). repeat split; vm_compute; congruence.
  - lia.
Defined.

(** A [Content-Length] value that is no [int64] in decimal is returned as
    the error of [ParseInt]. *)
Theorem unparsable_content_length W url minimumRequiredSize chunks res ar cl cls n e :
  url_ok W url = true ->
  client_Do W "HEAD" url None = Some res ->
  Header res !! "Accept-Ranges" = Some ("bytes"%string :: ar) ->
  Header res !! "Content-Length" = Some (cl :: cls) ->
  strconv.ParseInt cl = (n, Some e) ->
  result_of (readRemoteChunks W url minimumRequiredSize chunks)
  = Returned (n, [], Some e) /\ MalformedResponseError e.
Proof.
  intros Hurl Hhead Hranges Hlength Hparse.
  rewrite (readRemoteChunks_unparsable W url minimumRequiredSize chunks res
             Hurl Hhead ar cl cls n e Hranges Hlength Hparse).
  split; [reflexivity|]. eapply ParseInt_error, Hparse.
Qed.

Lemma unparsable_content_length_witness :
  result_of (readRemoteChunks
               (Examples.server {[ "Accept-Ranges"%string := ["bytes"%string];
                                   "Content-Length"%string := ["12a"%string] ]}
                                (Examples.zero_bytes 200000))
               "http://host/movie.mkv" OSDBChunkSize spans)
  = Returned (0, [], Some (NumError "ParseInt" ErrSyntax)) /\
  MalformedResponseError (NumError "ParseInt" ErrSyntax).
Proof.
  apply (unparsable_content_length _ _ _ _
           {| Header := {[ "Accept-Ranges"%string := ["bytes"%string];
                           "Content-Length"%string := ["12a"%string] ]};
              Body := [] |} [] "12a"%string []).
  - reflexivity.
  - reflexivity.
  - vm_compute. reflexivity.
  - vm_compute. reflexivity.
  - vm_compute. reflexivity.
Defined.

(** A range request answered with fewer bytes than the span fails with a
    [ShortReadError], and the body is closed all the same. *)
Theorem remote_short_read W url offset buf resp :
  url_ok W url = true ->
  client_Do W "GET" url (Some (range_header offset (len buf))) = Some resp ->
  len (Body resp) < len buf ->
  exists buf' e,
    readRemoteChunk W url offset buf
    = (Returned (buf', Some e),
       [EvDo "GET" url (Some (range_header offset (len buf))) true;
        EvBodyClose "GET" url]) /\
    ShortReadError e.
Proof.
  intros Hurl Hget Hshort. unfold readRemoteChunk, io_ReadFull. run_unfold.
  rewrite Hurl, Hget. cbn [negb].
  assert (len (take (length buf) (Body resp)) < len buf) as Hgot.
  { unfold len in *. rewrite length_take. lia. }
  destruct (Z.ltb_spec (len (take (length buf) (Body resp))) (len buf)); [|lia].
  eexists _, _. split; [reflexivity|].
  unfold ShortReadError. destruct (_ =? 0); auto.
Qed.

Lemma remote_short_read_witness :
  exists buf' e,
    readRemoteChunk (Examples.range_server (Examples.zero_bytes 100)) "http://host/a" 50
                    (Examples.zero_bytes 80)
    = (Returned (buf', Some e),
       [EvDo "GET" "http://host/a"
             (Some (range_header 50 (len (Examples.zero_bytes 80)))) true;
        EvBodyClose "GET" "http://host/a"]) /\
    ShortReadError e.
Proof.
  eapply remote_short_read.
  - reflexivity.
  - reflexivity.
  - vm_compute. reflexivity.
Defined.

(** A file that cannot be opened gives [OpenError], one that cannot be
    stat'ed [StatError]; neither is read. *)
Theorem local_open_and_stat_errors W filePath minimumRequiredSize chunks :
  is_remote filePath = false ->
  (fs W filePath = None ->
   readChunks W filePath minimumRequiredSize chunks
   = (Returned (0, [], Some OpenError), [])) /\
  (forall data, fs W filePath = Some (Unstatable data) ->
   readChunks W filePath minimumRequiredSize chunks
   = (Returned (0, [], Some StatError), [EvOpen filePath])).
Proof.
  intros Hlocal. unfold readChunks. fold (is_remote filePath). rewrite Hlocal.
  split; [intros ->|intros data ->]; reflexivity.
Qed.

Lemma local_open_and_stat_errors_witness :
  readChunks (Examples.local_world "movie.mkv" (Examples.zero_bytes 10))
             "other.mkv" OSDBChunkSize spans
  = (Returned (0, [], Some OpenError), []).
Proof.
  apply (local_open_and_stat_errors _ "other.mkv" OSDBChunkSize spans);
    reflexivity.
Defined.

(** ** Panics *)





(** A first span of negative size makes the read panic, at the allocation
    or at the first slice, once the source has passed the size check; no
    error value is returned. *)
Theorem negative_size_panics W filePath minimumRequiredSize c rest S :
  source_size W filePath S ->
  effective_minimum filePath minimumRequiredSize <= S ->
  size c < 0 -> is_int64 (size c) ->
  exists msg,
    result_of (readChunks W filePath minimumRequiredSize (c :: rest)) = Panicked msg.
Proof.
  intros Hsize Hmin Hneg Hint.
  assert (forall fetch, exists msg t,
            fresh_fill fetch S (c :: rest) = (Panicked msg, t)) as Hpanic.
  { intros fetch. unfold fresh_fill, make. run_unfold.
    destruct (_ <? 0); [eauto|]. cbn [fill]. run_unfold.
    unfold slice. rewrite wrap64_id by (rewrite Z.add_0_l; exact Hint).
    destruct (Z.leb_spec 0 (0 + size c)); [lia|]. cbn. eauto. }
  unfold source_size, effective_minimum in *.
  destruct (is_remote filePath) eqn:Hremote.
  - rewrite (remote_readChunks_fill W _ _ _ S) by assumption.
    destruct (Hpanic (readRemoteChunk W filePath)) as (msg & t & ->). cbn. eauto.
  - destruct Hsize as (data & Hfile & -> & _).
    rewrite (local_readChunks_fill W _ _ _ data) by assumption.
    destruct (Hpanic (readChunk filePath data)) as (msg & t & ->). cbn. eauto.
Qed.

Lemma negative_size_panics_witness :
  exists msg,
    result_of (readChunks (Examples.local_world "movie.mkv" (Examples.zero_bytes 1000))
                          "movie.mkv" 0
                          ({| offset := 0; size := -1 |}
                           :: [ {| offset := 0; size := 10 |} ]))
    = Panicked msg.
Proof.
  apply (negative_size_panics _ _ _ _ _ 1000).
  - exists (Examples.zero_bytes 1000). repeat split; vm_compute; congruence.
  - vm_compute. congruence.
  - reflexivity.
  - vm_compute. split; congruence.
Defined.

(** ** No span, and the first span that fails *)

(** With no span, [readChunks] determines and checks the size of the
    source and reads nothing: it returns the size and an empty buffer. *)
Theorem no_span_is_a_size_probe W filePath minimumRequiredSize S :
  source_size W filePath S ->
  effective_minimum filePath minimumRequiredSize <= S ->
  readChunks W filePath minimumRequiredSize []
  = (Returned (S, [], None),
     if is_remote filePath
     then [EvDo "HEAD" filePath None true; EvCancel]
     else [EvOpen filePath]).
Proof.
  intros Hsize Hmin. unfold source_size, effective_minimum in *.
  destruct (is_remote filePath) eqn:Hremote.
  - now rewrite (remote_readChunks_fill W _ _ _ S) by assumption.
  - destruct Hsize as (data & Hfile & -> & _).
    now rewrite (local_readChunks_fill W _ _ _ data) by assumption.
Qed.

Lemma no_span_is_a_size_probe_witness :
  readChunks (Examples.range_server (Examples.zero_bytes 70000))
             "https://host/movie.mkv" 0 []
  = (Returned (70000, [], None),
     if is_remote "https://host/movie.mkv"
     then [EvDo "HEAD" "https://host/movie.mkv" None true; EvCancel]
     else [EvOpen "https://host/movie.mkv"]).
Proof.
  apply no_span_is_a_size_probe.
  - split; [reflexivity|].
    eexists _, [], _, []. repeat split; vm_compute; reflexivity.
  - vm_compute. congruence.
Defined.



(** ** The requests of the remote reader *)



(** A remote source that declares no size of at least the minimum is sent
    no GET, however the call ends: with an error, or in a panic. *)
Theorem no_get_before_validation W url minimumRequiredSize chunks :
  (forall S, remote_size W url S -> S < minimumRequiredSize) ->
  Forall (fun e => is_fetch e = false)
         (events_of (readRemoteChunks W url minimumRequiredSize chunks)).
Proof.
  intros Hnone. unfold readRemoteChunks, first_value, index0, defer. run_unfold.
  destruct (url_ok W url) eqn:Hurl; [|repeat constructor].
  destruct (client_Do W "HEAD" url None) as [res|] eqn:Hhead; [|repeat constructor].
  destruct (Header res !! "Accept-Ranges") as [[|v ar]|] eqn:Hranges;
    [repeat constructor| |repeat constructor].
  cbn. destruct (String.eqb_spec v "bytes") as [->|]; [|repeat constructor].
  destruct (Header res !! "Content-Length") as [[|cl cls]|] eqn:Hlength;
    [repeat constructor| |repeat constructor].
  cbn. destruct (strconv.ParseInt cl) as [S [e|]] eqn:Hparse; [repeat constructor|].
  destruct (Z.ltb_spec S minimumRequiredSize); [repeat constructor|].
  exfalso. enough (S < minimumRequiredSize) by lia.
  apply Hnone. split; [assumption|]. eauto 10.
Qed.

Lemma no_get_before_validation_witness :
  Forall (fun e => is_fetch e = false)
         (events_of (readRemoteChunks
                       (Examples.server {[ "Accept-Ranges"%string := ["bytes"%string] ]}
                                        (Examples.zero_bytes 1000))
                       "https://host/movie.mkv" OSDBChunkSize spans)).
Proof.
  apply no_get_before_validation.
  intros S (_ & res & ar & cl & cls & Hhead & _ & Hlen & _).
  injection Hhead as <-. discriminate Hlen.
Defined.

(** In every run of [readRemoteChunks], whether it returns or panics, the
    body of each GET response is closed and that of the HEAD response is
    not: one body is left open when the HEAD request was answered, none
    otherwise. *)
Theorem remote_reader_resources W url minimumRequiredSize chunks :
  bodies_open (events_of (readRemoteChunks W url minimumRequiredSize chunks))
  = (if head_is_answered W url then 1 else 0).
Proof.
  destruct (readRemoteChunks_events W url minimumRequiredSize chunks)
    as [->|(S & r & t & Hfill & -> & ->)].
  - destruct (head_is_answered W url); [|destruct (url_ok W url)]; reflexivity.
  - cbn [bodies_open]. rewrite bodies_open_app.
    rewrite (fresh_fill_measure (readRemoteChunk W url) S bodies_open
               eq_refl bodies_open_app) with (chunks := chunks) (r := r) (t := t);
      [reflexivity| |exact Hfill].
    intros start sub r0 t0 H. now apply readRemoteChunk_events in H.
Qed.

Lemma remote_reader_resources_witness :
  bodies_open (events_of (readRemoteChunks
                            (Examples.range_server (Examples.zero_bytes 200000))
                            "https://host/movie.mkv" OSDBChunkSize spans)) = 1.
Proof.
  apply (remote_reader_resources
           (Examples.range_server (Examples.zero_bytes 200000))
           "https://host/movie.mkv" OSDBChunkSize spans).
Defined.

(** The reader is chosen by the prefix of the path alone, and the two
    readers share nothing: a path that does not start with [http://] or
    [https://] in lower case never causes a request, a path that does never
    touches a file. *)
Theorem backends_are_separate W filePath minimumRequiredSize chunks :
  Forall (fun e => (if is_remote filePath then is_file e else is_http e) = false)
         (events_of (readChunks W filePath minimumRequiredSize chunks)).
Proof.
  destruct (is_remote filePath) eqn:Hremote.
  - rewrite is_remote_readChunks by assumption.
    apply remote_reader_files.
  - destruct (fs W filePath) as [[data|data]|] eqn:Hfile.
    + rewrite (local_readChunks W _ _ _ data) by assumption.
      destruct (len data <? minimumRequiredSize); [repeat constructor|].
      destruct (fresh_fill (readChunk filePath data) (len data) chunks)
        as [r t] eqn:Hfill.
      unfold fresh_fill in Hfill. rewrite Hfill.
      constructor; [reflexivity|].
      eapply fresh_fill_events; [|exact Hfill].
      intros start sub r0 t0. apply readChunk_no_http.
    + unfold readChunks. fold (is_remote filePath). rewrite Hremote, Hfile.
      repeat constructor.
    + unfold readChunks. fold (is_remote filePath). rewrite Hremote, Hfile.
      constructor.
Qed.

Lemma backends_are_separate_witness :
  Forall (fun e => is_http e = false)
         (events_of (readChunks (Examples.range_server (Examples.zero_bytes 200000))
                                "HTTP://host/movie.mkv" OSDBChunkSize spans)).
Proof.
  apply (backends_are_separate (Examples.range_server (Examples.zero_bytes 200000))
           "HTTP://host/movie.mkv" OSDBChunkSize spans).
Defined.

(** ** The hash folder and its callers *)

(** [OSDBHashFile] has the events of its one call of [readChunks], panics
    when and as that call does, returns its error unchanged beside an
    empty hash, and on its success returns a hash and no error: decoding
    the buffer never fails. *)
Theorem hash_follows_the_read W filePath :
  events_of (OSDBHashFile W filePath)
  = events_of (readChunks W filePath OSDBChunkSize spans) /\
  match result_of (readChunks W filePath OSDBChunkSize spans) with
  | Panicked msg => result_of (OSDBHashFile W filePath) = Panicked msg
  | Returned (_, _, Some e) =>
      result_of (OSDBHashFile W filePath) = Returned (""%string, Some e)
  | Returned (fileSize, buf, None) =>
      result_of (OSDBHashFile W filePath)
      = Returned (Spec.computeIdentityHash buf fileSize, None)
  end.
Proof.
  destruct (readChunks W filePath OSDBChunkSize spans)
    as [[[[fileSize buf] [e|]]|msg] t] eqn:Hrun; cbn [result_of events_of fst snd].
  - now rewrite (OSDBHashFile_failure _ _ _ _ _ _ Hrun).
  - now rewrite (OSDBHashFile_success _ _ _ _ _ Hrun).
  - unfold OSDBHashFile. run_unfold. now rewrite Hrun.
Qed.

(** The remote reader checks neither the status of a GET answer nor which
    bytes it carries: when every GET is answered with the same body, of at
    least one chunk, the hash is that of the first 65536 bytes of that body
    taken twice, and the declared size. *)
Theorem range_ignored_head_twice W url S data :
  is_remote url = true ->
  remote_size W url S ->
  OSDBChunkSize <= S ->
  (forall range, exists resp,
     client_Do W "GET" url range = Some resp /\ Body resp = data) ->
  OSDBChunkSize <= len data ->
  result_of (OSDBHashFile W url)
  = Returned (Spec.computeIdentityHash
                (take (Z.to_nat OSDBChunkSize) data
                 ++ take (Z.to_nat OSDBChunkSize) data) S,
              None).
Proof.
  intros Hremote Hsize Hmin Hdeaf Hdata.
  assert (source_size W url S) as Hsource.
  { unfold source_size. now rewrite Hremote. }
  destruct (readChunks_ok W url OSDBChunkSize spans S Hsource) as (t & Hrun).
  - rewrite spans_total. unfold OSDBChunkSize, max_int64. lia.
  - unfold effective_minimum. now rewrite Hremote.
  - apply spans_readable; [assumption..|].
    intros _ start _. destruct (Hdeaf (Some (range_header start OSDBChunkSize)))
      as (resp & Hdo & Hbody).
    exists resp. now rewrite Hbody.
  - rewrite (OSDBHashFile_success _ _ _ _ _ Hrun). cbn [result_of fst].
    unfold spans, source_bytes, remote_bytes. rewrite Hremote. cbn [map concat size].
    destruct (Hdeaf (Some (range_header
                             (resolve S {| offset := 0; size := OSDBChunkSize |})
                             OSDBChunkSize))) as (r1 & -> & ->).
    destruct (Hdeaf (Some (range_header
                             (resolve S {| offset := - OSDBChunkSize;
                                           size := OSDBChunkSize |})
                             OSDBChunkSize))) as (r2 & -> & ->).
    now rewrite app_nil_r.
Qed.

Lemma range_ignored_head_twice_witness :
  result_of (OSDBHashFile (deaf_server (Examples.zero_bytes 200000))
                          "https://host/movie.mkv")
  = Returned (Spec.computeIdentityHash
                (take (Z.to_nat OSDBChunkSize) (Examples.zero_bytes 200000)
                 ++ take (Z.to_nat OSDBChunkSize) (Examples.zero_bytes 200000))
                200000,
              None).
Proof.
  apply range_ignored_head_twice.
  - reflexivity.
  - split; [reflexivity|].
    eexists _, _, _, _. split; [reflexivity|].
    split; [reflexivity|]. split; [reflexivity|]. vm_compute. reflexivity.
  - vm_compute. congruence.
  - intros range. eexists. split; reflexivity.
  - vm_compute. congruence.
Defined.

(** Two local files of the same size, of at least one chunk, where the
    first 65536 bytes of each are the last of the other, have the same
    hash: the hash keeps neither the order of the two chunks nor anything
    of what lies between them. *)
Theorem hash_blind_to_swap W1 W2 path1 path2 data1 data2 S :
  is_remote path1 = false -> is_remote path2 = false ->
  fs W1 path1 = Some (Regular data1) -> fs W2 path2 = Some (Regular data2) ->
  len data1 = S -> len data2 = S ->
  OSDBChunkSize <= S -> S <= max_int64 ->
  bytes_at data1 0 OSDBChunkSize = bytes_at data2 (S - OSDBChunkSize) OSDBChunkSize ->
  bytes_at data1 (S - OSDBChunkSize) OSDBChunkSize = bytes_at data2 0 OSDBChunkSize ->
  result_of (OSDBHashFile W1 path1) = result_of (OSDBHashFile W2 path2).
Proof.
  intros Hl1 Hl2 Hf1 Hf2 Hs1 Hs2 Hmin Hmax Hhead Htail.
  assert (forall W path data,
            is_remote path = false -> fs W path = Some (Regular data) ->
            len data = S ->
            result_of (OSDBHashFile W path)
            = Returned (Spec.computeIdentityHash
                          (bytes_at data 0 OSDBChunkSize
                           ++ bytes_at data (S - OSDBChunkSize) OSDBChunkSize) S,
                        None)) as Hhash.
  { intros W path data Hl Hf Hs.
    assert (source_size W path S) as Hsource.
    { unfold source_size. rewrite Hl. exists data. auto. }
    destruct (readChunks_ok W path OSDBChunkSize spans S Hsource) as (t & Hrun).
    - rewrite spans_total. unfold OSDBChunkSize, max_int64. lia.
    - unfold effective_minimum. now rewrite Hl.
    - apply spans_readable; [assumption..|]. intros Hr. congruence.
    - rewrite (OSDBHashFile_success _ _ _ _ _ Hrun). cbn [result_of fst].
      unfold spans, source_bytes. rewrite Hl, Hf. cbn [map concat size file_data].
      change {| offset := - OSDBChunkSize; size := OSDBChunkSize |} with tail_span.
      rewrite resolve_tail, app_nil_r; [reflexivity|unfold OSDBChunkSize in *; lia]. }
  rewrite (Hhash W1 path1 data1), (Hhash W2 path2 data2) by assumption.
  rewrite Hhead, Htail. f_equal. f_equal.
  apply computeIdentityHash_swap; apply len_bytes_at; unfold OSDBChunkSize in *; lia.
Qed.

Lemma hash_blind_to_swap_witness :
  result_of (OSDBHashFile
               (Examples.local_world "a.mkv"
                  ((replicate (Z.to_nat 65536) x01 ++ replicate (Z.to_nat 1000) x02)
                   ++ replicate (Z.to_nat 65536) x03))
               "a.mkv")
  = result_of (OSDBHashFile
                 (Examples.local_world "b.mkv"
                    ((replicate (Z.to_nat 65536) x03 ++ replicate (Z.to_nat 1000) x04)
                     ++ replicate (Z.to_nat 65536) x01))
                 "b.mkv").
Proof.
  assert (forall a m b : byte,
            len ((replicate (Z.to_nat 65536) a ++ replicate (Z.to_nat 1000) m)
                 ++ replicate (Z.to_nat 65536) b) = 132072) as Hlen.
  { intros a m b. rewrite !len_app, !len_replicate; lia. }
  assert (forall a m b : byte,
            bytes_at ((replicate (Z.to_nat 65536) a ++ replicate (Z.to_nat 1000) m)
                      ++ replicate (Z.to_nat 65536) b) 0 OSDBChunkSize
            = replicate (Z.to_nat 65536) a) as Hhead.
  { intros a m b. rewrite <- app_assoc.
    rewrite <- (bytes_at_app_l (replicate (Z.to_nat 65536) a)
                  (replicate (Z.to_nat 1000) m ++ replicate (Z.to_nat 65536) b)) at 2.
    now rewrite len_replicate by lia. }
  assert (forall a m b : byte,
            bytes_at ((replicate (Z.to_nat 65536) a ++ replicate (Z.to_nat 1000) m)
                      ++ replicate (Z.to_nat 65536) b) (132072 - OSDBChunkSize)
                     OSDBChunkSize
            = replicate (Z.to_nat 65536) b) as Htail.
  { intros a m b.
    rewrite <- (bytes_at_app_r
                  (replicate (Z.to_nat 65536) a ++ replicate (Z.to_nat 1000) m)
                  (replicate (Z.to_nat 65536) b)) at 2.
    now rewrite len_app, !len_replicate by lia. }
  apply (hash_blind_to_swap _ _ _ _
           ((replicate (Z.to_nat 65536) x01 ++ replicate (Z.to_nat 1000) x02)
            ++ replicate (Z.to_nat 65536) x03)
           ((replicate (Z.to_nat 65536) x03 ++ replicate (Z.to_nat 1000) x04)
            ++ replicate (Z.to_nat 65536) x01)
           132072).
  - reflexivity.
  - reflexivity.
  - reflexivity.
  - reflexivity.
  - apply Hlen.
  - apply Hlen.
  - unfold OSDBChunkSize. lia.
  - unfold max_int64. lia.
  - now rewrite Hhead, Htail.
  - now rewrite Hhead, Htail.
Defined.


